(** * GTF filter nodes ([gtf_nodes/filters.py]) in Rocq

    A shallow embedding of the filter node layer of ComfyUI-GTF-Utilities.
    A node's [f] method receives references to torch tensors living in the
    Python object store, so the embedding threads an explicit store through
    every call: returning the argument itself and returning a copy are
    different results here, as they are in Python.

    Tensors hold IEEE binary32 elements, kept as their 32-bit patterns; the
    comparisons and the arithmetic go through [SpecFloat]. *)

From Stdlib Require Import ZArith Lia QArith Qminmax Lqa.
From Stdlib Require Import Floats.SpecFloat DecimalString.
From stdpp Require Import base tactics option list strings relations.

Local Open Scope Z_scope.

(** ** IEEE binary32, as torch.float stores it *)

Module F32.

Definition prec : Z := 24.
Definition emax : Z := 128.

(** Fields of a 32-bit pattern. *)
Definition sign_bit (b : Z) : bool := Z.testbit b 31.
Definition exponent (b : Z) : Z := Z.land (Z.shiftr b 23) 255.
Definition mantissa (b : Z) : Z := Z.land b 8388607.

Definition is_nan (b : Z) : bool :=
  (exponent b =? 255) && negb (mantissa b =? 0).

Definition decode (b : Z) : spec_float :=
  let s := sign_bit b in
  let e := exponent b in
  let m := mantissa b in
  if e =? 255 then (if m =? 0 then S754_infinity s else S754_nan)
  else if e =? 0 then
    match m with
    | Zpos p => S754_finite s p (-149)
    | _ => S754_zero s
    end
  else
    match m + 8388608 with
    | Zpos p => S754_finite s p (e - 150)
    | _ => S754_zero s
    end.

(** The pattern of a [spec_float] in canonical form (what the [SpecFloat]
    operations return); NaN becomes the default quiet NaN. *)
Definition encode (x : spec_float) : Z :=
  let sgn (s : bool) : Z := if s then 2147483648 else 0 in
  match x with
  | S754_zero s => sgn s
  | S754_infinity s => sgn s + 2139095040
  | S754_nan => 2143289344
  | S754_finite s m e =>
      if Zpos m <? 8388608 then sgn s + Zpos m
      else sgn s + Z.shiftl (e + 150) 23 + (Zpos m - 8388608)
  end.

Definition zero : Z := 0.
Definition one : Z := 1065353216.          (* 0x3F800000 *)
Definition pos_inf : Z := 2139095040.      (* 0x7F800000 *)
Definition max_float : Z := 2139095039.    (* 0x7F7FFFFF *)
Definition qnan : Z := 2143289344.         (* 0x7FC00000 *)

(** [a >= b], the IEEE comparison: false as soon as one side is NaN. *)
Definition ge (a b : Z) : bool := SFleb (decode b) (decode a).
Definition lt (a b : Z) : bool := SFltb (decode a) (decode b).

Definition add (a b : Z) : Z := encode (SFadd prec emax (decode a) (decode b)).
Definition sub (a b : Z) : Z := encode (SFsub prec emax (decode a) (decode b)).

(** torch's max and min propagate NaN. *)
Definition max (a b : Z) : Z :=
  if is_nan a then a else if is_nan b then b else if lt a b then b else a.
Definition min (a b : Z) : Z :=
  if is_nan a then a else if is_nan b then b else if lt b a then b else a.

Definition of_bool (b : bool) : Z := if b then one else zero.

End F32.

Global Arguments F32.decode : simpl never.
Global Arguments F32.encode : simpl never.
Global Arguments F32.is_nan : simpl never.
Global Arguments F32.ge : simpl never.
Global Arguments F32.lt : simpl never.
Global Arguments F32.add : simpl never.
Global Arguments F32.sub : simpl never.
Global Arguments F32.max : simpl never.
Global Arguments F32.min : simpl never.

(** ** The order of binary32 values *)

(** A non-NaN value as a sort key: [SFcompare] is the lexicographic
    comparison of the keys. *)
Definition key (d : spec_float) : Z * Z * Z :=
  match d with
  | S754_nan => (3, 0, 0)
  | S754_infinity s => (if s then -2 else 2, 0, 0)
  | S754_zero _ => (0, 0, 0)
  | S754_finite s m e => if s then (-1, - e, Zneg m) else (1, e, Zpos m)
  end.

Definition lexcmp (k1 k2 : Z * Z * Z) : comparison :=
  let '(a1, b1, c1) := k1 in
  let '(a2, b2, c2) := k2 in
  match a1 ?= a2 with
  | Eq => match b1 ?= b2 with
          | Eq => c1 ?= c2
          | r => r
          end
  | r => r
  end.

(** ** Errors and the store-passing monad *)

Inductive error : Type :=
  | UnboundLocalError (name : string)
      (* Python: a local variable read before any assignment *)
  | RuntimeError (msg : string)
      (* torch: shapes that do not broadcast, reduction of an empty tensor;
         also a reference to no object, which Python cannot produce *)
  | InvalidArgument (allowed : list string).
      (* the error kind of the specification, carrying the allowed names *)

Inductive result (A : Type) : Type :=
  | Ok (a : A)
  | Err (e : error).
Arguments Ok {A} a.
Arguments Err {A} e.

Definition rbind {A B} (r : result A) (k : A → result B) : result B :=
  match r with
  | Ok a => k a
  | Err e => Err e
  end.

(** ** Grids: contiguous 4-dimensional tensors *)

Record shape4 : Type := Shape { dimN : nat; dimC : nat; dimH : nat; dimW : nat }.

Global Instance shape4_eq_dec : EqDecision shape4.
Proof. solve_decision. Defined.

Definition numel (s : shape4) : nat := (dimN s * dimC s * dimH s * dimW s)%nat.

(** Row-major offset of an element. *)
Definition offset (s : shape4) (n c i j : nat) : nat :=
  (((n * dimC s + c) * dimH s + i) * dimW s + j)%nat.

Definition in_range (s : shape4) (n c i j : nat) : Prop :=
  (n < dimN s ∧ c < dimC s ∧ i < dimH s ∧ j < dimW s)%nat.

Record grid (A : Type) : Type := Grid { shape : shape4; data : list A }.
Arguments Grid {A} shape data.
Arguments shape {A} g.
Arguments data {A} g.

Definition wf {A} (g : grid A) : Prop := length (data g) = numel (shape g).

Definition gget {A} (g : grid A) (n c i j : nat) : option A :=
  data g !! offset (shape g) n c i j.

(** The elements of a tensor of shape [s] in storage order, computed from
    their indices. *)
Definition tabulate {A} (s : shape4) (f : nat → nat → nat → nat → A) : list A :=
  n ← seq 0 (dimN s); c ← seq 0 (dimC s);
  i ← seq 0 (dimH s); j ← seq 0 (dimW s); [f n c i j].

Definition build {A} (s : shape4) (f : nat → nat → nat → nat → A) : grid A :=
  Grid s (tabulate s f).

Definition gat {A} `{Inhabited A} (g : grid A) (n c i j : nat) : A :=
  default inhabitant (gget g n c i j).

(** ** The object store *)

(** A torch tensor is a grid together with its dtype. *)
Inductive tensor : Type :=
  | TFloat (g : grid Z)
  | TBool (g : grid bool).

Definition ref : Type := nat.
Definition heap : Type := list tensor.

Definition M (A : Type) : Type := heap → result (A * heap).

Definition ret {A} (a : A) : M A := λ h, Ok (a, h).
Definition raise {A} (e : error) : M A := λ _, Err e.
Definition bind {A B} (m : M A) (k : A → M B) : M B :=
  λ h, match m h with
       | Ok (a, h') => k a h'
       | Err e => Err e
       end.

Declare Scope store_scope.
Delimit Scope store_scope with store.
Notation "'do' x <- m 'in' k" := (bind m (λ x, k))
  (at level 10, x name, m at level 100, k at level 200) : store_scope.
Local Open Scope store_scope.

(** A new object gets the next free address; nothing already stored moves. *)
Definition alloc (t : tensor) : M ref := λ h, Ok (length h, h ++ [t]).

Definition load (r : ref) : M tensor :=
  λ h, match h !! r with
       | Some t => Ok (t, h)
       | None => Err (RuntimeError "no such object")
       end.

(** What a call leaves behind, read through the reference it returned. *)
Definition outcome (m : M ref) (h : heap) : result tensor :=
  match m h with
  | Ok (r, h') =>
      match h' !! r with
      | Some t => Ok t
      | None => Err (RuntimeError "no such object")
      end
  | Err e => Err e
  end.

(** ** The torch operations the node layer uses *)

Module torch.

(** Two dimensions broadcast when they agree or one of them is 1. *)
Definition broadcast_dim (a b : nat) : option nat :=
  if decide (a = b) then Some a
  else if decide (a = 1%nat) then Some b
  else if decide (b = 1%nat) then Some a
  else None.

Definition broadcast_shapes (s t : shape4) : option shape4 :=
  n ← broadcast_dim (dimN s) (dimN t);
  c ← broadcast_dim (dimC s) (dimC t);
  h ← broadcast_dim (dimH s) (dimH t);
  w ← broadcast_dim (dimW s) (dimW t);
  Some (Shape n c h w).

(** An index of the broadcast result, read in an operand: a dimension of
    size 1 is read at 0. *)
Definition bidx (d i : nat) : nat := if decide (d = 1%nat) then 0%nat else i.

Definition bget {A} (g : grid A) (n c i j : nat) : option A :=
  let s := shape g in
  gget g (bidx (dimN s) n) (bidx (dimC s) c) (bidx (dimH s) i) (bidx (dimW s) j).

Definition bat {A} `{Inhabited A} (g : grid A) (n c i j : nat) : A :=
  default inhabitant (bget g n c i j).

(** Type promotion of a bool tensor in a float context. *)
Definition to_float_grid (g : grid bool) : grid Z :=
  Grid (shape g) (F32.of_bool <$> data g).

Definition as_float (t : tensor) : grid Z :=
  match t with
  | TFloat g => g
  | TBool g => to_float_grid g
  end.

(** The sizes are checked from the last dimension to the first; the first
    pair that does not broadcast is the one the error reports: the size in
    [a], the size in [b] and the dimension. *)
Definition size_mismatch (s t : shape4) : nat * nat * nat :=
  if broadcast_dim (dimW s) (dimW t) is None then (dimW s, dimW t, 3%nat)
  else if broadcast_dim (dimH s) (dimH t) is None then (dimH s, dimH t, 2%nat)
  else if broadcast_dim (dimC s) (dimC t) is None then (dimC s, dimC t, 1%nat)
  else (dimN s, dimN t, 0%nat).

Definition decimal (n : nat) : string := NilZero.string_of_uint (Nat.to_uint n).

Definition size_message (a b d : nat) : string :=
  String.append "The size of tensor a ("
    (String.append (decimal a)
       (String.append ") must match the size of tensor b ("
          (String.append (decimal b)
             (String.append ") at non-singleton dimension " (decimal d))))).

Definition ge_grid (a b : grid Z) : result (grid bool) :=
  match broadcast_shapes (shape a) (shape b) with
  | Some s => Ok (build s (λ n c i j, F32.ge (bat a n c i j) (bat b n c i j)))
  | None =>
      let '(x, y, d) := size_mismatch (shape a) (shape b) in
      Err (RuntimeError (size_message x y d))
  end.

(** [a >= b]: a new bool tensor. *)
Definition ge (a b : ref) : M ref :=
  do ta <- load a in do tb <- load b in
  match ge_grid (as_float ta) (as_float tb) with
  | Ok g => alloc (TBool g)
  | Err e => raise e
  end.

(** [t.to(torch.float)]: the tensor itself when it already is a float
    tensor, a converted copy otherwise. *)
Definition to_float (r : ref) : M ref :=
  do t <- load r in
  match t with
  | TFloat _ => ret r
  | TBool g => alloc (TFloat (to_float_grid g))
  end.

End torch.

(** ** gtf_impl: the implementation library behind the nodes *)

(** The functions of [gtf_impl] take tensors and return a tensor of their
    own; [lift1] and [lift2] run such a function on stored tensors. *)
Definition lift1 (fn : grid Z → result (grid Z)) (a : ref) : M ref :=
  do ta <- load a in
  match fn (torch.as_float ta) with
  | Ok g => alloc (TFloat g)
  | Err e => raise e
  end.

Definition lift2 (fn : grid Z → grid Z → result (grid Z)) (a b : ref) : M ref :=
  do ta <- load a in do tb <- load b in
  match fn (torch.as_float ta) (torch.as_float tb) with
  | Ok g => alloc (TFloat g)
  | Err e => raise e
  end.

(** Element arithmetic, so that one definition serves binary32 and exact
    rationals. *)
Record arith (A : Type) : Type := Arith {
  a_add : A → A → A;
  a_sub : A → A → A;
  a_max : A → A → A;
  a_min : A → A → A
}.
Arguments Arith {A} _ _ _ _.
Arguments a_add {A} _ _ _.
Arguments a_sub {A} _ _ _.
Arguments a_max {A} _ _ _.
Arguments a_min {A} _ _ _.

Definition f32_arith : arith Z := Arith F32.add F32.sub F32.max F32.min.

(** Exact arithmetic on rationals: no rounding, no overflow, no NaN. *)
Definition q_arith : arith Q := Arith Qplus Qminus Qmax Qmin.

Module U.

(** Modelled from the spec: [gtf_impl/utils.py] is not among the sources.
    "output satisfies g' = (max_val + min_val) - g where max_val/min_val are
    the global extrema of g". The global extrema of a tensor without
    elements do not exist; torch raises there. *)
Definition invert_with {A} (ops : arith A) (g : grid A) : result (grid A) :=
  match data g with
  | [] => Err (RuntimeError "max(): input has no elements")
  | x :: l =>
      let max_val := foldl (a_max ops) x l in
      let min_val := foldl (a_min ops) x l in
      Ok (Grid (shape g) ((λ v, a_sub ops (a_add ops max_val min_val) v) <$> data g))
  end.

Definition invert : grid Z → result (grid Z) := invert_with f32_arith.

(** Modelled from the spec: the other way the spec writes the same
    quantity, "g' = max(g) - g + min(g) computed globally", taken from left
    to right. *)
Definition invert_left_with {A} (ops : arith A) (g : grid A) : result (grid A) :=
  match data g with
  | [] => Err (RuntimeError "max(): input has no elements")
  | x :: l =>
      let max_val := foldl (a_max ops) x l in
      let min_val := foldl (a_min ops) x l in
      Ok (Grid (shape g) ((λ v, a_add ops (a_sub ops max_val v) min_val) <$> data g))
  end.

End U.

Module FT.

(** *** Patch statistics and morphology *)

Definition clamp (lo hi x : Z) : Z := Z.max lo (Z.min hi x).

(** The offsets [-r .. r] of a window of side [2r+1]. *)
Definition window (r : nat) : list Z :=
  (λ k : nat, Z.of_nat k - Z.of_nat r) <$> seq 0 (2 * r + 1).

(** Modelled from the spec: [gtf_impl/filters.py] is not among the sources.
    "for every output pixel (h,w), compute stat over the window
    [h-radius, h+radius] x [w-radius, w+radius] ... using edge-replicate
    padding (out-of-bounds reads return the nearest in-bounds value)". *)
Definition patch_values (g : grid Z) (r : nat) (n c i j : nat) : list Z :=
  let hmax := Z.of_nat (dimH (shape g)) - 1 in
  let wmax := Z.of_nat (dimW (shape g)) - 1 in
  di ← window r; dj ← window r;
  [gat g n c (Z.to_nat (clamp 0 hmax (Z.of_nat i + di)))
             (Z.to_nat (clamp 0 wmax (Z.of_nat j + dj)))].

Definition reduce (op : Z → Z → Z) (l : list Z) : Z :=
  match l with
  | [] => F32.qnan
  | x :: l => foldl op x l
  end.

(** Modelled from the spec: "Radius parameters are non-negative integers";
    a negative radius is an out-of-range parameter (InvalidArgument). *)
Definition patch_stat (stat : list Z → Z) (g : grid Z) (radius : Z)
  : result (grid Z) :=
  if radius <? 0 then Err (InvalidArgument ["radius >= 0"])
  else Ok (build (shape g)
             (λ n c i j, stat (patch_values g (Z.to_nat radius) n c i j))).

Definition patch_max : grid Z → Z → result (grid Z) :=
  patch_stat (reduce F32.max).
Definition patch_min : grid Z → Z → result (grid Z) :=
  patch_stat (reduce F32.min).

(** Modelled from the spec: "dilate(g, r) = patch_max(g, r)",
    "erode(g, r) = patch_min(g, r)", "open(g, r) = dilate(erode(g, r), r)",
    "close(g, r) = erode(dilate(g, r), r)". *)
Definition dilate (g : grid Z) (radius : Z) : result (grid Z) :=
  patch_max g radius.
Definition erode (g : grid Z) (radius : Z) : result (grid Z) :=
  patch_min g radius.
Definition open (g : grid Z) (radius : Z) : result (grid Z) :=
  rbind (erode g radius) (λ e, dilate e radius).
Definition close (g : grid Z) (radius : Z) : result (grid Z) :=
  rbind (dilate g radius) (λ d, erode d radius).

(** *** Hysteresis thresholding *)

(** A pixel belongs to a mask when its value is 1.0. *)
Definition is_set (g : grid Z) (n c i j : nat) : bool :=
  bool_decide (gget g n c i j = Some F32.one).

(** The 8 neighbours of a pixel. *)
Definition offsets8 : list (Z * Z) :=
  [(-1, -1); (-1, 0); (-1, 1); (0, -1); (0, 1); (1, -1); (1, 0); (1, 1)].

(** The pixels of an [H] x [W] image next to [(i, j)]. *)
Definition neighbours (offs : list (Z * Z)) (s : shape4) (i j : nat)
  : list (nat * nat) :=
  omap (λ '(di, dj),
          let i' := Z.of_nat i + di in
          let j' := Z.of_nat j + dj in
          if (0 <=? i') && (i' <? Z.of_nat (dimH s))
             && (0 <=? j') && (j' <? Z.of_nat (dimW s))
          then Some (Z.to_nat i', Z.to_nat j') else None) offs.

(** One pass of the flood fill: a pixel is kept when it already is in the
    result, or when it is weak and has a neighbour in the result. *)
Definition pass (offs : list (Z * Z)) (weak cur : grid Z) : grid Z :=
  build (shape cur)
    (λ n c i j,
       F32.of_bool
         (is_set cur n c i j
          || (is_set weak n c i j
              && existsb (λ '(i', j'), is_set cur n c i' j')
                   (neighbours offs (shape cur) i j)))).

(** Passes are repeated until one adds no pixel. *)
Fixpoint propagate (offs : list (Z * Z)) (fuel : nat) (weak cur : grid Z)
  : grid Z :=
  match fuel with
  | O => cur
  | S fuel' =>
      let nxt := pass offs weak cur in
      if bool_decide (data nxt = data cur) then cur
      else propagate offs fuel' weak nxt
  end.

(** Modelled from the spec: [gtf_impl/filters.py] is not among the sources.
    "Output retains every pixel that is in strong_mask, plus every pixel in
    weak_mask that is connected ... to a strong pixel through a path of weak
    pixels. Implemented as iterative flood-fill/BFS from strong seeds,
    expanding through weak pixels, converging when no new pixel is added in a
    pass. Must terminate (bounded by total pixel count)." The connectivity
    is left open by the spec; [hysteresis_with] takes it as a parameter and
    [hysteresis_threshold] uses 8-connectivity. Masks of different shapes
    are a ShapeMismatch, rendered as torch's shape error. *)
Definition hysteresis_with (offs : list (Z * Z)) (weak strong : grid Z)
  : result (grid Z) :=
  if decide (shape weak = shape strong) then
    let seeds := build (shape strong)
                   (λ n c i j, F32.of_bool (is_set strong n c i j)) in
    Ok (propagate offs (numel (shape strong)) weak seeds)
  else Err (RuntimeError "The size of tensor a must match the size of tensor b").

Definition hysteresis_threshold : grid Z → grid Z → result (grid Z) :=
  hysteresis_with offsets8.

End FT.

(** Modelled from the spec: the remaining functions of [gtf_impl], which no
    property below looks into, are pure functions from tensors and scalar
    parameters to one new tensor (or an error). [F_MAP_keys] are the names of
    the quantization modes. *)
Record gtf_impl : Type := GtfImpl {
  U_sum_normalize : grid Z → nat * nat → result (grid Z);
  U_range_normalize : grid Z → nat * nat → result (grid Z);
  FT_patch_range_normalize : grid Z → Z → result (grid Z);
  FT_patch_median : grid Z → Z → result (grid Z);
  FT_otsus_method : grid Z → Z → result (grid Z);
  FT_quantize : grid Z → Z → string → result (grid Z);
  FT_F_MAP_keys : list string;
  FT_convolve_2d : grid Z → grid Z → result (grid Z);
  FT_gradient_suppression_mask : grid Z → grid Z → result (grid Z)
}.

(** ** The node classes of [gtf_nodes/filters.py] *)

(** What [INPUT_TYPES] declares for one input: its socket type and, for an
    integer, the options dictionary. *)
Inductive input_type : Type :=
  | GTF
  | INT (opts : list (string * Z))
  | COMBO (choices : list string).

(** The "required" dictionary, in declaration order. *)
Definition input_types : Type := list (string * input_type).

Fixpoint assoc {V} (k : string) (l : list (string * V)) : option V :=
  match l with
  | [] => None
  | (k', v) :: l => if String.eqb k k' then Some v else assoc k l
  end.

Definition declared_min (its : input_types) (name : string) : option Z :=
  match assoc name its with
  | Some (INT opts) => assoc "min" opts
  | _ => None
  end.

(** The host checks an integer against the declared bounds before it calls
    [f]. *)
Definition admits_int (its : input_types) (name : string) (v : Z) : bool :=
  match assoc name its with
  | Some (INT opts) =>
      match assoc "min" opts with Some lo => lo <=? v | None => true end
      && match assoc "max" opts with Some hi => v <=? hi | None => true end
  | _ => false
  end.

Module FilterBase.
Definition INPUT_TYPES : input_types := [("gtf", GTF)].
End FilterBase.

Module FilterRadiusBase.
Definition INPUT_TYPES : input_types :=
  [("gtf", GTF); ("radius", INT [("min", 0); ("default", 1)])].
End FilterRadiusBase.

Module Invert.
Definition INPUT_TYPES : input_types := FilterBase.INPUT_TYPES.
Definition f (gtf : ref) : M ref := lift1 U.invert gtf.
End Invert.

Module SumNormalize.
Definition INPUT_TYPES : input_types := FilterBase.INPUT_TYPES.
Definition f (impl : gtf_impl) (gtf : ref) : M ref :=
  lift1 (λ g, U_sum_normalize impl g (2, 3)%nat) gtf.
End SumNormalize.

Module RangeNormalize.
Definition INPUT_TYPES : input_types := FilterBase.INPUT_TYPES.
Definition f (impl : gtf_impl) (gtf : ref) : M ref :=
  lift1 (λ g, U_range_normalize impl g (2, 3)%nat) gtf.
End RangeNormalize.

Module PatchRangeNormalize.
Definition INPUT_TYPES : input_types := FilterRadiusBase.INPUT_TYPES.
Definition f (impl : gtf_impl) (gtf : ref) (radius : Z) : M ref :=
  lift1 (λ g, FT_patch_range_normalize impl g radius) gtf.
End PatchRangeNormalize.

Module BinaryThreshold.
Definition INPUT_TYPES : input_types := [("gtf", GTF); ("gtf_threshold", GTF)].
(** [(gtf >= gtf_threshold).to(torch.float)] *)
Definition f (gtf gtf_threshold : ref) : M ref :=
  do mask <- torch.ge gtf gtf_threshold in
  torch.to_float mask.
End BinaryThreshold.

Module OtsusMethod.
Definition INPUT_TYPES : input_types :=
  [("gtf", GTF); ("bins", INT [("min", 1); ("default", 256)])].
Definition f (impl : gtf_impl) (gtf : ref) (bins : Z) : M ref :=
  lift1 (λ g, FT_otsus_method impl g bins) gtf.
End OtsusMethod.

Module HysteresisThreshold.
Definition INPUT_TYPES : input_types := [("gtf_weak", GTF); ("gtf_strong", GTF)].
Definition f (gtf_weak gtf_strong : ref) : M ref :=
  lift2 FT.hysteresis_threshold gtf_weak gtf_strong.
End HysteresisThreshold.

Module Quantize.
Definition INPUT_TYPES (impl : gtf_impl) : input_types :=
  [("gtf", GTF);
   ("steps", INT [("default", 256); ("min", 2); ("max", 1000000)]);
   ("mode", COMBO (FT_F_MAP_keys impl))].
Definition f (impl : gtf_impl) (gtf : ref) (steps : Z) (mode : string) : M ref :=
  lift1 (λ g, FT_quantize impl g steps mode) gtf.
End Quantize.

Module Convolve.
Definition INPUT_TYPES : input_types := [("gtf", GTF); ("gtf_kernel", GTF)].
Definition f (impl : gtf_impl) (gtf gtf_kernel : ref) : M ref :=
  lift2 (FT_convolve_2d impl) gtf gtf_kernel.
End Convolve.

Module GradientNMSMask.
Definition INPUT_TYPES : input_types := [("gtf_r", GTF); ("gtf_theta", GTF)].
Definition f (impl : gtf_impl) (gtf_r gtf_theta : ref) : M ref :=
  lift2 (FT_gradient_suppression_mask impl) gtf_r gtf_theta.
End GradientNMSMask.

Module MorphologicalFilter.
Definition operations : list string := ["dilate"; "erode"; "open"; "close"].

Definition INPUT_TYPES : input_types :=
  [("gtf", GTF);
   ("operation", COMBO operations);
   ("radius", INT [("default", 3); ("min", 1)])].

(** The [match] statement has no default case: with an operation it does
    not list, [filtered] stays unassigned and the [return] that reads it
    raises. *)
Definition f (gtf : ref) (operation : string) (radius : Z) : M ref :=
  if radius =? 0 then ret gtf
  else
    do filtered <-
      (if String.eqb operation "dilate" then
         do r <- lift1 (λ g, FT.dilate g radius) gtf in ret (Some r)
       else if String.eqb operation "erode" then
         do r <- lift1 (λ g, FT.erode g radius) gtf in ret (Some r)
       else if String.eqb operation "open" then
         do r <- lift1 (λ g, FT.open g radius) gtf in ret (Some r)
       else if String.eqb operation "close" then
         do r <- lift1 (λ g, FT.close g radius) gtf in ret (Some r)
       else ret None) in
    match filtered with
    | Some r => ret r
    | None => raise (UnboundLocalError "filtered")
    end.
End MorphologicalFilter.

Module MinFilter.
Definition INPUT_TYPES : input_types := FilterRadiusBase.INPUT_TYPES.
Definition f (gtf : ref) (radius : Z) : M ref :=
  lift1 (λ g, FT.patch_min g radius) gtf.
End MinFilter.

Module MaxFilter.
Definition INPUT_TYPES : input_types := FilterRadiusBase.INPUT_TYPES.
Definition f (gtf : ref) (radius : Z) : M ref :=
  lift1 (λ g, FT.patch_max g radius) gtf.
End MaxFilter.

Module MedianFilter.
Definition INPUT_TYPES : input_types := FilterRadiusBase.INPUT_TYPES.
Definition f (impl : gtf_impl) (gtf : ref) (radius : Z) : M ref :=
  lift1 (λ g, FT_patch_median impl g radius) gtf.
End MedianFilter.

(** A call of one of the registered nodes ([NODE_CLASS_MAPPINGS]) with its
    arguments. *)
Inductive call : Type :=
  | CallConvolve (gtf gtf_kernel : ref)
  | CallGradientNMSMask (gtf_r gtf_theta : ref)
  | CallHysteresisThreshold (gtf_weak gtf_strong : ref)
  | CallSumNormalize (gtf : ref)
  | CallRangeNormalize (gtf : ref)
  | CallInvert (gtf : ref)
  | CallBinaryThreshold (gtf gtf_threshold : ref)
  | CallQuantize (gtf : ref) (steps : Z) (mode : string)
  | CallMorphological (gtf : ref) (operation : string) (radius : Z)
  | CallOtsusMethod (gtf : ref) (bins : Z)
  | CallPatchRangeNormalize (gtf : ref) (radius : Z)
  | CallMinFilter (gtf : ref) (radius : Z)
  | CallMaxFilter (gtf : ref) (radius : Z)
  | CallMedianFilter (gtf : ref) (radius : Z).

Definition run (impl : gtf_impl) (c : call) : M ref :=
  match c with
  | CallConvolve g k => Convolve.f impl g k
  | CallGradientNMSMask r t => GradientNMSMask.f impl r t
  | CallHysteresisThreshold w s => HysteresisThreshold.f w s
  | CallSumNormalize g => SumNormalize.f impl g
  | CallRangeNormalize g => RangeNormalize.f impl g
  | CallInvert g => Invert.f g
  | CallBinaryThreshold g t => BinaryThreshold.f g t
  | CallQuantize g steps mode => Quantize.f impl g steps mode
  | CallMorphological g op r => MorphologicalFilter.f g op r
  | CallOtsusMethod g bins => OtsusMethod.f impl g bins
  | CallPatchRangeNormalize g r => PatchRangeNormalize.f impl g r
  | CallMinFilter g r => MinFilter.f g r
  | CallMaxFilter g r => MaxFilter.f g r
  | CallMedianFilter g r => MedianFilter.f impl g r
  end.

(** The tensor arguments of a call. *)
Definition inputs (c : call) : list ref :=
  match c with
  | CallConvolve a b | CallGradientNMSMask a b
  | CallHysteresisThreshold a b | CallBinaryThreshold a b => [a; b]
  | CallSumNormalize g | CallRangeNormalize g | CallInvert g
  | CallQuantize g _ _ | CallMorphological g _ _ | CallOtsusMethod g _
  | CallPatchRangeNormalize g _ | CallMinFilter g _ | CallMaxFilter g _
  | CallMedianFilter g _ => [g]
  end.

(** ** Predicates on the store *)

(** Every object of [h] is still there, unchanged, in [h']. *)
Definition preserved (h h' : heap) : Prop :=
  ∀ r t, h !! r = Some t → h' !! r = Some t.

(** [r] is the address of no object of [h]. *)
Definition fresh (h : heap) (r : ref) : Prop := h !! r = None.


(** ** Masks and connectivity *)

(** A binary mask holds nothing but 0.0 and 1.0. *)
Definition binary_mask (g : grid Z) : Prop :=
  Forall (λ v, v = F32.zero ∨ v = F32.one) (data g).

(** The number of pixels of a mask. *)
Definition count_set (g : grid Z) : nat :=
  length (filter (λ v, v = F32.one) (data g)).

(** A mask stored as 0.0 / 1.0 in every cell of its shape. *)
Definition canonical (g : grid Z) : Prop :=
  data g = tabulate (shape g) (λ n c i j, F32.of_bool (FT.is_set g n c i j)).

(** A cell either keeps its value or turns from unset to 1.0. *)
Definition grew (a b : Z) : Prop := a = b ∨ (a ≠ F32.one ∧ b = F32.one).

(** A step of the flood fill in image [(n, c)]: from a pixel [q] to a weak
    pixel [p] that has [q] among its neighbours. *)
Definition step_with (offs : list (Z * Z)) (weak : grid Z) (n c : nat)
  (q p : nat * nat) : Prop :=
  q ∈ FT.neighbours offs (shape weak) p.1 p.2
  ∧ (p.1 < dimH (shape weak))%nat ∧ (p.2 < dimW (shape weak))%nat
  ∧ FT.is_set weak n c p.1 p.2 = true.

Definition connected_with (offs : list (Z * Z)) (weak strong : grid Z)
  (n c : nat) (p : nat * nat) : Prop :=
  ∃ q, (q.1 < dimH (shape strong))%nat ∧ (q.2 < dimW (shape strong))%nat
       ∧ FT.is_set strong n c q.1 q.2 = true
       ∧ rtc (step_with offs weak n c) q p.

(** What the passes of the flood fill maintain: the shape, the 0/1 storage,
    and that every pixel held so far is connected to a strong pixel. *)
Definition flood_invariant (offs : list (Z * Z)) (weak strong cur : grid Z)
  : Prop :=
  shape cur = shape strong
  ∧ canonical cur
  ∧ ∀ n c i j, in_range (shape strong) n c i j →
      FT.is_set cur n c i j = true →
      connected_with offs weak strong n c (i, j).

(** Two different pixels whose rows and columns differ by at most one. *)
Definition adjacent8 (q p : nat * nat) : Prop :=
  q ≠ p
  ∧ Z.abs (Z.of_nat q.1 - Z.of_nat p.1) ≤ 1
  ∧ Z.abs (Z.of_nat q.2 - Z.of_nat p.2) ≤ 1.

(** One step of a path of weak pixels in image [(n, c)]: from a pixel of the
    image to an adjacent pixel of the image that is weak. *)
Definition weak_step (weak : grid Z) (n c : nat) (q p : nat * nat) : Prop :=
  adjacent8 q p
  ∧ (q.1 < dimH (shape weak))%nat ∧ (q.2 < dimW (shape weak))%nat
  ∧ (p.1 < dimH (shape weak))%nat ∧ (p.2 < dimW (shape weak))%nat
  ∧ FT.is_set weak n c p.1 p.2 = true.

(** [p] is a strong pixel, or a weak pixel that a path of weak pixels joins
    to a strong pixel. *)
Definition connected (weak strong : grid Z) (n c : nat) (p : nat * nat) : Prop :=
  ∃ q, (q.1 < dimH (shape strong))%nat ∧ (q.2 < dimW (shape strong))%nat
       ∧ FT.is_set strong n c q.1 q.2 = true
       ∧ rtc (weak_step weak n c) q p.

(** The strip of the specification: 7 pixels in a row, pixel 0 strong, pixels
    1 to 4 and 6 weak, pixel 5 neither. *)
Definition strip (l : list Z) : grid Z := Grid (Shape 1 1 1 (length l)) l.
Definition strip_weak : grid Z :=
  strip [F32.zero; F32.one; F32.one; F32.one; F32.one; F32.zero; F32.one].
Definition strip_strong : grid Z :=
  strip [F32.one; F32.zero; F32.zero; F32.zero; F32.zero; F32.zero; F32.zero].
Definition strip_out : grid Z :=
  strip [F32.one; F32.one; F32.one; F32.one; F32.one; F32.zero; F32.zero].

(** ** Sample data *)

(** A 2 x 2 image whose third element is a NaN, and a 1 x 1 threshold. *)
Definition sample_grid : grid Z :=
  Grid (Shape 1 1 2 2) [F32.one; F32.zero; F32.qnan; 1073741824].
Definition sample_threshold : grid Z := Grid (Shape 1 1 1 1) [F32.one].
Definition sample_heap : heap := [TFloat sample_grid; TFloat sample_threshold].

(** A row of three pixels, the middle one unset, and a store that holds it
    beside the 2 x 2 image. *)
Definition gap_row : grid Z := strip [F32.one; F32.zero; F32.one].
Definition gap_heap : heap := [TFloat gap_row; TFloat sample_grid].

(** A single pixel holding +infinity, and one holding the largest finite
    binary32 number. *)
Definition inf_grid : grid Z := Grid (Shape 1 1 1 1) [F32.pos_inf].
Definition huge_grid : grid Z := Grid (Shape 1 1 1 1) [F32.max_float].
Definition nan_grid : grid Z := Grid (Shape 1 1 1 1) [F32.qnan].

(** An instance of the functions left open in [gtf_impl], to run calls on
    samples: each hands back its first tensor argument. *)
Definition sample_impl : gtf_impl :=
  GtfImpl (λ g _, Ok g) (λ g _, Ok g) (λ g _, Ok g) (λ g _, Ok g)
          (λ g _, Ok g) (λ g _ _, Ok g) ["round"; "floor"; "ceil"]
          (λ g _, Ok g) (λ g _, Ok g).

(** The declarations of the four patch filters, which take theirs from
    [FilterRadiusBase]. *)
Definition patch_filter_inputs : list input_types :=
  [PatchRangeNormalize.INPUT_TYPES; MinFilter.INPUT_TYPES;
   MaxFilter.INPUT_TYPES; MedianFilter.INPUT_TYPES].

(** ** The class hierarchy and the node registry *)

Inductive class_id : Type :=
  | KFilterBase | KFilterRadiusBase
  | KInvert | KSumNormalize | KRangeNormalize | KPatchRangeNormalize
  | KBinaryThreshold | KOtsusMethod | KHysteresisThreshold | KQuantize
  | KConvolve | KGradientNMSMask | KMorphologicalFilter
  | KMinFilter | KMaxFilter | KMedianFilter.

Global Instance class_id_eq_dec : EqDecision class_id.
Proof. solve_decision. Defined.

(** The annotation of a parameter of [f]. *)
Inductive annotation : Type := AnnTensor | AnnInt | AnnStr.

(** What a class body binds a name to. *)
Inductive attribute : Type :=
  | AttrInputTypes (its : input_types)
  | AttrTuple (items : list string)
  | AttrStr (s : string)
  | AttrFunction (params : list (string * annotation)).

(** [class K(B)]: the base class of each class. *)
Definition base (k : class_id) : option class_id :=
  match k with
  | KFilterBase => None
  | KFilterRadiusBase => Some KFilterBase
  | KInvert | KSumNormalize | KRangeNormalize | KBinaryThreshold
  | KOtsusMethod | KHysteresisThreshold | KQuantize | KConvolve
  | KGradientNMSMask | KMorphologicalFilter => Some KFilterBase
  | KPatchRangeNormalize | KMinFilter | KMaxFilter | KMedianFilter =>
      Some KFilterRadiusBase
  end.

(** The names each class body defines itself. *)
Definition own_attributes (impl : gtf_impl) (k : class_id)
  : list (string * attribute) :=
  match k with
  | KFilterBase =>
      [("INPUT_TYPES", AttrInputTypes [("gtf", GTF)]);
       ("RETURN_TYPES", AttrTuple ["GTF"]);
       ("RETURN_NAMES", AttrTuple ["gtf"]);
       ("CATEGORY", AttrStr "gtf/filter");
       ("FUNCTION", AttrStr "f")]
  | KFilterRadiusBase =>
      [("INPUT_TYPES",
        AttrInputTypes
          [("gtf", GTF); ("radius", INT [("min", 0); ("default", 1)])])]
  | KInvert | KSumNormalize | KRangeNormalize =>
      [("f", AttrFunction [("gtf", AnnTensor)])]
  | KPatchRangeNormalize | KMinFilter | KMaxFilter | KMedianFilter =>
      [("f", AttrFunction [("gtf", AnnTensor); ("radius", AnnInt)])]
  | KBinaryThreshold =>
      [("INPUT_TYPES", AttrInputTypes [("gtf", GTF); ("gtf_threshold", GTF)]);
       ("f", AttrFunction [("gtf", AnnTensor); ("gtf_threshold", AnnTensor)])]
  | KOtsusMethod =>
      [("INPUT_TYPES",
        AttrInputTypes
          [("gtf", GTF); ("bins", INT [("min", 1); ("default", 256)])]);
       ("f", AttrFunction [("gtf", AnnTensor); ("bins", AnnInt)])]
  | KHysteresisThreshold =>
      [("INPUT_TYPES",
        AttrInputTypes [("gtf_weak", GTF); ("gtf_strong", GTF)]);
       ("f", AttrFunction [("gtf_weak", AnnTensor); ("gtf_strong", AnnTensor)])]
  | KQuantize =>
      [("INPUT_TYPES",
        AttrInputTypes
          [("gtf", GTF);
           ("steps", INT [("default", 256); ("min", 2); ("max", 1000000)]);
           ("mode", COMBO (FT_F_MAP_keys impl))]);
       ("f", AttrFunction
               [("gtf", AnnTensor); ("steps", AnnInt); ("mode", AnnStr)])]
  | KConvolve =>
      [("INPUT_TYPES", AttrInputTypes [("gtf", GTF); ("gtf_kernel", GTF)]);
       ("f", AttrFunction [("gtf", AnnTensor); ("gtf_kernel", AnnTensor)])]
  | KGradientNMSMask =>
      [("INPUT_TYPES", AttrInputTypes [("gtf_r", GTF); ("gtf_theta", GTF)]);
       ("f", AttrFunction [("gtf_r", AnnTensor); ("gtf_theta", AnnTensor)])]
  | KMorphologicalFilter =>
      [("INPUT_TYPES",
        AttrInputTypes
          [("gtf", GTF);
           ("operation", COMBO ["dilate"; "erode"; "open"; "close"]);
           ("radius", INT [("default", 3); ("min", 1)])]);
       ("f", AttrFunction
               [("gtf", AnnTensor); ("operation", AnnStr); ("radius", AnnInt)])]
  end.

(** Attribute lookup: the class itself, then its bases in turn. [fuel]
    bounds the number of bases visited. *)
Fixpoint lookup_mro (impl : gtf_impl) (fuel : nat) (k : class_id)
  (name : string) : option attribute :=
  match assoc name (own_attributes impl k) with
  | Some a => Some a
  | None =>
      match fuel, base k with
      | S fuel', Some b => lookup_mro impl fuel' b name
      | _, _ => None
      end
  end.

(** No class of the file has more than two classes above it. *)
Definition getattr (impl : gtf_impl) (k : class_id) (name : string)
  : option attribute :=
  lookup_mro impl 2 k name.

(** [NODE_CLASS_MAPPINGS], in the order of the dictionary display. *)
Definition NODE_CLASS_MAPPINGS : list (string * class_id) :=
  [("GTF | Filter - Convolve", KConvolve);
   ("GTF | Filter - Gradient NMS Mask", KGradientNMSMask);
   ("GTF | Filter - Hysteresis Threshold", KHysteresisThreshold);
   ("GTF | Filter - Sum Normalize", KSumNormalize);
   ("GTF | Filter - Range Normalize", KRangeNormalize);
   ("GTF | Filter - Invert", KInvert);
   ("GTF | Filter - Binary Threshold", KBinaryThreshold);
   ("GTF | Filter - Quantize", KQuantize);
   ("GTF | Filter - Morphological", KMorphologicalFilter);
   ("GTF | Helper - Otsu's Method", KOtsusMethod);
   ("GTF | Filter - Patch Range Normalize", KPatchRangeNormalize);
   ("GTF | Filter - Patch Min", KMinFilter);
   ("GTF | Filter - Patch Max", KMaxFilter);
   ("GTF | Filter - Patch Median", KMedianFilter)].

(** The [INPUT_TYPES] a class answers with, as the module of the class has
    it above. *)
Definition class_input_types (impl : gtf_impl) (k : class_id) : input_types :=
  match k with
  | KFilterBase => FilterBase.INPUT_TYPES
  | KFilterRadiusBase => FilterRadiusBase.INPUT_TYPES
  | KInvert => Invert.INPUT_TYPES
  | KSumNormalize => SumNormalize.INPUT_TYPES
  | KRangeNormalize => RangeNormalize.INPUT_TYPES
  | KPatchRangeNormalize => PatchRangeNormalize.INPUT_TYPES
  | KBinaryThreshold => BinaryThreshold.INPUT_TYPES
  | KOtsusMethod => OtsusMethod.INPUT_TYPES
  | KHysteresisThreshold => HysteresisThreshold.INPUT_TYPES
  | KQuantize => Quantize.INPUT_TYPES impl
  | KConvolve => Convolve.INPUT_TYPES
  | KGradientNMSMask => GradientNMSMask.INPUT_TYPES
  | KMorphologicalFilter => MorphologicalFilter.INPUT_TYPES
  | KMinFilter => MinFilter.INPUT_TYPES
  | KMaxFilter => MaxFilter.INPUT_TYPES
  | KMedianFilter => MedianFilter.INPUT_TYPES
  end.

(** ** Calling a node by keyword *)

(** A value handed to a node: a tensor, an integer or a string. *)
Inductive value : Type :=
  | VTensor (r : ref)
  | VInt (z : Z)
  | VStr (s : string).

(** A value fits a declared input: a tensor for a GTF socket, an integer
    within the declared bounds, one of the listed strings. *)
Definition admits (t : input_type) (v : value) : bool :=
  match t, v with
  | GTF, VTensor _ => true
  | INT opts, VInt z =>
      match assoc "min" opts with Some lo => lo <=? z | None => true end
      && match assoc "max" opts with Some hi => z <=? hi | None => true end
  | COMBO choices, VStr s => existsb (String.eqb s) choices
  | _, _ => false
  end.

(** Keyword arguments fit a declaration: every declared input is supplied
    with a fitting value, and nothing undeclared is supplied. *)
Definition validate (its : input_types) (kw : list (string * value)) : bool :=
  forallb (λ d : string * input_type,
             match assoc d.1 kw with
             | Some v => admits d.2 v
             | None => false
             end) its
  && forallb (λ a : string * value,
                match assoc a.1 its with Some _ => true | None => false end) kw.

(** A call of [f] by keyword: every parameter must be supplied, and no keyword may be left
    over; the arguments come out in parameter order. *)
Definition bind_arguments (params : list (string * annotation))
  (kw : list (string * value)) : option (list value) :=
  if forallb (λ a : string * value,
                match assoc a.1 params with Some _ => true | None => false end)
       kw
  then mapM (λ p : string * annotation, assoc p.1 kw) params
  else None.

(** The call a class and its arguments in parameter order stand for; the
    arguments have the kinds the annotations of [f] name. *)
Definition to_call (k : class_id) (args : list value) : option call :=
  match k, args with
  | KConvolve, [VTensor g; VTensor kernel] => Some (CallConvolve g kernel)
  | KGradientNMSMask, [VTensor r; VTensor t] => Some (CallGradientNMSMask r t)
  | KHysteresisThreshold, [VTensor w; VTensor s] =>
      Some (CallHysteresisThreshold w s)
  | KSumNormalize, [VTensor g] => Some (CallSumNormalize g)
  | KRangeNormalize, [VTensor g] => Some (CallRangeNormalize g)
  | KInvert, [VTensor g] => Some (CallInvert g)
  | KBinaryThreshold, [VTensor g; VTensor t] => Some (CallBinaryThreshold g t)
  | KQuantize, [VTensor g; VInt steps; VStr mode] =>
      Some (CallQuantize g steps mode)
  | KMorphologicalFilter, [VTensor g; VStr op; VInt r] =>
      Some (CallMorphological g op r)
  | KOtsusMethod, [VTensor g; VInt bins] => Some (CallOtsusMethod g bins)
  | KPatchRangeNormalize, [VTensor g; VInt r] =>
      Some (CallPatchRangeNormalize g r)
  | KMinFilter, [VTensor g; VInt r] => Some (CallMinFilter g r)
  | KMaxFilter, [VTensor g; VInt r] => Some (CallMaxFilter g r)
  | KMedianFilter, [VTensor g; VInt r] => Some (CallMedianFilter g r)
  | _, _ => None
  end.

(** The host's call of a node: the method that [FUNCTION] names, applied to
    the keyword arguments. [None] when the class has no such method or the
    arguments do not bind. *)
Definition invoke (impl : gtf_impl) (k : class_id) (kw : list (string * value))
  : option call :=
  match getattr impl k "FUNCTION" with
  | Some (AttrStr fname) =>
      match getattr impl k fname with
      | Some (AttrFunction params) =>
          args ← bind_arguments params kw; to_call k args
      | _ => None
      end
  | _ => None
  end.

(** The default a declaration gives an integer input. *)
Definition declared_default (its : input_types) (name : string) : option Z :=
  match assoc name its with
  | Some (INT opts) => assoc "default" opts
  | _ => None
  end.

(** ** Shapes that broadcast *)

Definition compatible_dim (a b : nat) : Prop := a = b ∨ a = 1%nat ∨ b = 1%nat.

Definition compatible (s t : shape4) : Prop :=
  compatible_dim (dimN s) (dimN t) ∧ compatible_dim (dimC s) (dimC t)
  ∧ compatible_dim (dimH s) (dimH t) ∧ compatible_dim (dimW s) (dimW t).

(** The four sizes of a shape, by dimension number. *)
Definition dims (s : shape4) : list nat := [dimN s; dimC s; dimH s; dimW s].

(** [x <= y] on stored elements, a NaN being comparable to itself only. *)
Definition f32_le (x y : Z) : Prop := x = y ∨ F32.ge y x = true.

(** A tensor holding the single element [v]. *)
Definition scalar_grid (v : Z) : grid Z := Grid (Shape 1 1 1 1) [v].

(** The tensors among keyword arguments, in the order of the declaration. *)
Definition tensor_args (its : input_types) (kw : list (string * value))
  : list ref :=
  omap (λ d : string * input_type,
          match d.2, assoc d.1 kw with
          | GTF, Some (VTensor r) => Some r
          | _, _ => None
          end) its.

(** Keyword arguments for the sample store. *)
Definition sample_kwargs : list (string * value) :=
  [("radius", VInt 2); ("operation", VStr "open"); ("gtf", VTensor 0%nat)].
(** * Properties *)

(** ** Indexing a tabulated tensor *)

Section Tabulate.
Context {A : Type}.
Local Open Scope nat_scope.

Lemma length_bind_seq (body : nat → list A) (L a K : nat) :
  (∀ i, length (body i) = L) → length (seq a K ≫= body) = K * L.
Proof.
  intros HL. revert a. induction K as [|K IH]; intros a; simpl; [done|].
  rewrite length_app, HL, IH. lia.
Qed.

Lemma lookup_bind_seq (body : nat → list A) (L a K i k : nat) :
  (∀ i, length (body i) = L) → i < K → k < L →
  (seq a K ≫= body) !! (i * L + k) = body (a + i) !! k.
Proof.
  intros HL. revert a i. induction K as [|K IH]; intros a i Hi Hk; [lia|].
  simpl. destruct i as [|i].
  - rewrite lookup_app_l by (rewrite HL; lia).
    by rewrite Nat.add_0_r.
  - rewrite lookup_app_r by (rewrite HL; lia).
    rewrite HL.
    replace (S i * L + k - L) with (i * L + k) by lia.
    rewrite IH by lia. by replace (S a + i) with (a + S i) by lia.
Qed.

Lemma elem_of_bind_seq (body : nat → list A) (a K : nat) (x : A) :
  x ∈ seq a K ≫= body ↔ ∃ i, a ≤ i < a + K ∧ x ∈ body i.
Proof.
  rewrite list_elem_of_bind. split.
  - intros (i & Hx & Hi). apply elem_of_seq in Hi. eauto.
  - intros (i & Hi & Hx). exists i. split; [done|]. by apply elem_of_seq.
Qed.

Lemma block_index_lt (K L i k : nat) : i < K → k < L → i * L + k < K * L.
Proof.
  intros Hi Hk.
  assert ((i + 1) * L ≤ K * L) by (apply Nat.mul_le_mono_r; lia).
  lia.
Qed.

Lemma length_tabulate (s : shape4) (f : nat → nat → nat → nat → A) :
  length (tabulate s f) = numel s.
Proof.
  unfold tabulate, numel.
  rewrite (length_bind_seq _ (dimC s * dimH s * dimW s)); [lia|].
  intros n. rewrite (length_bind_seq _ (dimH s * dimW s)); [lia|].
  intros c. rewrite (length_bind_seq _ (dimW s)); [lia|].
  intros i. rewrite (length_bind_seq _ 1); [lia|]. done.
Qed.

Lemma wf_build (s : shape4) (f : nat → nat → nat → nat → A) : wf (build s f).
Proof. apply length_tabulate. Qed.

Lemma lookup_tabulate (s : shape4) (f : nat → nat → nat → nat → A) n c i j :
  in_range s n c i j → tabulate s f !! offset s n c i j = Some (f n c i j).
Proof.
  intros (Hn & Hc & Hi & Hj). unfold tabulate, offset.
  replace (((n * dimC s + c) * dimH s + i) * dimW s + j)
    with (n * (dimC s * dimH s * dimW s) + ((c * dimH s + i) * dimW s + j))
    by lia.
  assert (i * dimW s + j < dimH s * dimW s) by by apply block_index_lt.
  assert (c * (dimH s * dimW s) + (i * dimW s + j) < dimC s * (dimH s * dimW s))
    by by apply block_index_lt.
  rewrite (lookup_bind_seq _ (dimC s * dimH s * dimW s)); [| |done|lia].
  2:{ intros n'. rewrite (length_bind_seq _ (dimH s * dimW s)); [lia|].
      intros c'. rewrite (length_bind_seq _ (dimW s)); [lia|].
      intros i'. by rewrite (length_bind_seq _ 1); [lia|]. }
  replace ((c * dimH s + i) * dimW s + j)
    with (c * (dimH s * dimW s) + (i * dimW s + j)) by lia.
  rewrite (lookup_bind_seq _ (dimH s * dimW s)); [| |done|lia].
  2:{ intros c'. rewrite (length_bind_seq _ (dimW s)); [lia|].
      intros i'. by rewrite (length_bind_seq _ 1); [lia|]. }
  rewrite (lookup_bind_seq _ (dimW s)); [| |done|done].
  2:{ intros i'. by rewrite (length_bind_seq _ 1); [lia|]. }
  replace j with (j * 1 + 0) at 1 by lia.
  rewrite (lookup_bind_seq _ 1); [|done|done|lia].
  done.
Qed.

Lemma gget_build (s : shape4) (f : nat → nat → nat → nat → A) n c i j :
  in_range s n c i j → gget (build s f) n c i j = Some (f n c i j).
Proof. apply lookup_tabulate. Qed.

Lemma elem_of_tabulate (s : shape4) (f : nat → nat → nat → nat → A) (x : A) :
  x ∈ tabulate s f ↔ ∃ n c i j, in_range s n c i j ∧ x = f n c i j.
Proof.
  unfold tabulate, in_range. rewrite elem_of_bind_seq. split.
  - intros (n & Hn & Hx). apply elem_of_bind_seq in Hx as (c & Hc & Hx).
    apply elem_of_bind_seq in Hx as (i & Hi & Hx).
    apply elem_of_bind_seq in Hx as (j & Hj & Hx).
    apply list_elem_of_singleton in Hx.
    exists n, c, i, j. split; [lia|done].
  - intros (n & c & i & j & (Hn & Hc & Hi & Hj) & ->).
    exists n. split; [lia|]. apply elem_of_bind_seq.
    exists c. split; [lia|]. apply elem_of_bind_seq.
    exists i. split; [lia|]. apply elem_of_bind_seq.
    exists j. split; [lia|]. by apply list_elem_of_singleton.
Qed.

(** Two tabulated tensors agree when their generators agree in range. *)
Lemma tabulate_ext (s : shape4) (f g : nat → nat → nat → nat → A) :
  (∀ n c i j, in_range s n c i j → f n c i j = g n c i j) →
  tabulate s f = tabulate s g.
Proof.
  intros Hfg. unfold tabulate.
  apply Forall_bind_ext, Forall_forall. intros n Hn%elem_of_seq.
  apply Forall_bind_ext, Forall_forall. intros c Hc%elem_of_seq.
  apply Forall_bind_ext, Forall_forall. intros i Hi%elem_of_seq.
  apply Forall_bind_ext, Forall_forall. intros j Hj%elem_of_seq.
  f_equal. apply Hfg. unfold in_range. lia.
Qed.

End Tabulate.

(** ** The store across a call *)

Lemma preserved_refl (h : heap) : preserved h h.
Proof. by intros r t. Qed.

Lemma preserved_trans (h1 h2 h3 : heap) :
  preserved h1 h2 → preserved h2 h3 → preserved h1 h3.
Proof. intros H12 H23 r t Hr. eauto. Qed.

Lemma preserved_alloc (h : heap) (t : tensor) : preserved h (h ++ [t]).
Proof. intros r t' Hr. by apply lookup_app_l_Some. Qed.

Lemma fresh_length (h : heap) : fresh h (length h).
Proof. apply lookup_ge_None_2. lia. Qed.

Lemma lookup_alloc (h : heap) (t : tensor) : (h ++ [t]) !! length h = Some t.
Proof. by rewrite lookup_app_r, Nat.sub_diag by lia. Qed.

Lemma lookup_alloc2 (h : heap) (a b : tensor) :
  (h ++ [a] ++ [b]) !! S (length h) = Some b.
Proof.
  rewrite lookup_app_r by lia.
  by replace (S (length h) - length h)%nat with 1%nat by lia.
Qed.

Lemma load_ok r h t h' : load r h = Ok (t, h') → h !! r = Some t ∧ h' = h.
Proof. unfold load. destruct (h !! r); naive_solver. Qed.

Lemma lift1_ok fn a h r h' :
  lift1 fn a h = Ok (r, h') →
  ∃ t g, h !! a = Some t ∧ fn (torch.as_float t) = Ok g
         ∧ r = length h ∧ h' = h ++ [TFloat g].
Proof.
  unfold lift1, bind, load, alloc, raise.
  destruct (h !! a) as [t|]; [|done].
  destruct (fn (torch.as_float t)) as [g|] eqn:Hfn; [|done].
  intros [= <- <-]. eauto 10.
Qed.

Lemma lift1_run fn a h t :
  h !! a = Some t →
  lift1 fn a h = match fn (torch.as_float t) with
                 | Ok g => Ok (length h, h ++ [TFloat g])
                 | Err e => Err e
                 end.
Proof.
  intros Ha. unfold lift1, bind, load, alloc, raise. rewrite Ha.
  by destruct (fn (torch.as_float t)).
Qed.

Lemma lift2_ok fn a b h r h' :
  lift2 fn a b h = Ok (r, h') →
  ∃ ta tb g, h !! a = Some ta ∧ h !! b = Some tb
             ∧ fn (torch.as_float ta) (torch.as_float tb) = Ok g
             ∧ r = length h ∧ h' = h ++ [TFloat g].
Proof.
  unfold lift2, bind, load, alloc, raise.
  destruct (h !! a) as [ta|]; [|done].
  destruct (h !! b) as [tb|]; [|done].
  destruct (fn _ _) as [g|] eqn:Hfn; [|done].
  intros [= <- <-]. eauto 10.
Qed.

Lemma binary_threshold_run gtf gtf_threshold h ta tb :
  h !! gtf = Some ta → h !! gtf_threshold = Some tb →
  BinaryThreshold.f gtf gtf_threshold h =
    match torch.ge_grid (torch.as_float ta) (torch.as_float tb) with
    | Ok m => Ok (S (length h),
                  h ++ [TBool m] ++ [TFloat (torch.to_float_grid m)])
    | Err e => Err e
    end.
Proof.
  intros Ha Hb.
  unfold BinaryThreshold.f, torch.ge, torch.to_float, bind, load, alloc, raise, ret.
  rewrite Ha, Hb.
  destruct (torch.ge_grid _ _) as [m|]; [|done].
  rewrite lookup_alloc, length_app. simpl.
  rewrite Nat.add_1_r. by rewrite <- app_assoc.
Qed.

Lemma binary_threshold_ok gtf gtf_threshold h r h' :
  BinaryThreshold.f gtf gtf_threshold h = Ok (r, h') →
  ∃ ta tb m, h !! gtf = Some ta ∧ h !! gtf_threshold = Some tb
    ∧ torch.ge_grid (torch.as_float ta) (torch.as_float tb) = Ok m
    ∧ r = S (length h)
    ∧ h' = h ++ [TBool m] ++ [TFloat (torch.to_float_grid m)].
Proof.
  destruct (h !! gtf) as [ta|] eqn:Ha; cycle 1.
  { unfold BinaryThreshold.f, torch.ge, bind, load. by rewrite Ha. }
  destruct (h !! gtf_threshold) as [tb|] eqn:Hb; cycle 1.
  { unfold BinaryThreshold.f, torch.ge, bind, load. by rewrite Ha, Hb. }
  rewrite (binary_threshold_run _ _ _ _ _ Ha Hb).
  destruct (torch.ge_grid _ _) as [m|] eqn:Hge; [|done].
  intros [= <- <-]. eauto 10.
Qed.

Lemma morphological_ok gtf operation radius h r h' :
  MorphologicalFilter.f gtf operation radius h = Ok (r, h') →
  (radius = 0 ∧ r = gtf ∧ h' = h)
  ∨ (radius ≠ 0 ∧ ∃ t g, h !! gtf = Some t ∧ r = length h ∧ h' = h ++ [TFloat g]).
Proof.
  unfold MorphologicalFilter.f.
  destruct (Z.eqb_spec radius 0) as [->|Hr].
  { intros [= <- <-]. by left. }
  intros Hrun. right. split; [done|].
  unfold bind at 1 in Hrun.
  repeat match type of Hrun with
  | context [if String.eqb ?a ?b then _ else _] => destruct (String.eqb a b)
  end.
  1-4: unfold bind, ret in Hrun;
    match type of Hrun with
    | context [lift1 ?fn ?a ?h] =>
        destruct (lift1 fn a h) as [[r0 h0]|] eqn:Hl; [|done];
        apply lift1_ok in Hl as (t & g & ? & ? & -> & ->)
    end; injection Hrun as <- <-; eauto.
  done.
Qed.

(** ** The morphological filter *)

Lemma patch_stat_ok stat g radius :
  0 ≤ radius →
  FT.patch_stat stat g radius =
    Ok (build (shape g)
          (λ n c i j, stat (FT.patch_values g (Z.to_nat radius) n c i j))).
Proof.
  intros Hr. unfold FT.patch_stat.
  by destruct (Z.ltb_spec radius 0); [lia|].
Qed.

(** C1: with radius 0 the morphological filter returns its argument itself,
    whatever the operation name (the four listed ones in particular): the
    call gives back the very reference it received and leaves the store as
    it found it, no tensor being computed or allocated. The tensor read
    through the result is therefore the input tensor, element for element,
    bit for bit (NaN patterns included). *)
Theorem morphological_radius_zero_identity
  (gtf : ref) (operation : string) (h : heap) :
  MorphologicalFilter.f gtf operation 0 h = Ok (gtf, h)
  ∧ ∀ t, h !! gtf = Some t →
         outcome (MorphologicalFilter.f gtf operation 0) h = Ok t.
Proof.
  split; [reflexivity|].
  intros t Ht. unfold outcome. simpl. by rewrite Ht.
Qed.

Lemma morphological_radius_zero_identity_witness :
  MorphologicalFilter.f 0%nat "erode" 0 sample_heap = Ok (0%nat, sample_heap)
  ∧ outcome (MorphologicalFilter.f 0%nat "erode" 0) sample_heap
    = Ok (TFloat sample_grid).
Proof.
  destruct (morphological_radius_zero_identity 0%nat "erode" sample_heap)
    as [Hsame Hread].
  split; [exact Hsame|]. apply Hread. reflexivity.
Defined.

(** C2 (as the code has it): with a nonzero radius and an operation name
    outside dilate, erode, open, close, the call fails, and the failure is
    Python's UnboundLocalError on the local variable [filtered], which no case
    of the [match] assigned; it is not an InvalidArgument error and names no
    allowed operation. *)
Theorem morphological_unknown_operation
  (gtf : ref) (operation : string) (radius : Z) (h : heap) :
  radius ≠ 0 →
  operation ∉ MorphologicalFilter.operations →
  MorphologicalFilter.f gtf operation radius h
  = Err (UnboundLocalError "filtered").
Proof.
  intros Hr Hop. unfold MorphologicalFilter.f.
  destruct (Z.eqb_spec radius 0) as [|_]; [done|].
  unfold MorphologicalFilter.operations in Hop.
  repeat match goal with
  | |- context [String.eqb operation ?s] =>
      destruct (String.eqb_spec operation s) as [->|_];
        [exfalso; apply Hop; set_solver|]
  end.
  reflexivity.
Qed.

Lemma morphological_unknown_operation_witness :
  MorphologicalFilter.f 0%nat "blur" 2 sample_heap
  = Err (UnboundLocalError "filtered").
Proof.
  apply morphological_unknown_operation; [lia|].
  unfold MorphologicalFilter.operations.
  intros Hin. repeat (apply elem_of_cons in Hin as [Heq|Hin]; [discriminate Heq|]).
  by apply elem_of_nil in Hin.
Defined.

(** C2, the claim as stated fails: the unknown operation "blur" with radius
    1 does not produce an InvalidArgument error naming the allowed set. *)
Lemma morphological_unknown_operation_counterexample :
  ("blur" ∉ MorphologicalFilter.operations)
  ∧ ¬ (∃ allowed,
         MorphologicalFilter.f 0%nat "blur" 1 sample_heap
         = Err (InvalidArgument allowed)).
Proof.
  split.
  - unfold MorphologicalFilter.operations. intros Hin.
    repeat (apply elem_of_cons in Hin as [Heq|Hin]; [discriminate Heq|]).
    by apply elem_of_nil in Hin.
  - intros [allowed Hrun]. vm_compute in Hrun. discriminate Hrun.
Qed.

(** C7: for a stored grid and a radius of at least 1, the open operation
    yields a tensor, and it is the tensor that dilate yields on the result of
    erode; the close operation yields the tensor that erode yields on the
    result of dilate. *)
Theorem morphological_open_close
  (gtf : ref) (t : tensor) (radius : Z) (h : heap) :
  h !! gtf = Some t →
  1 ≤ radius →
  (∃ out,
      outcome (MorphologicalFilter.f gtf "open" radius) h = Ok (TFloat out)
      ∧ outcome (do e <- MorphologicalFilter.f gtf "erode" radius in
                 MorphologicalFilter.f e "dilate" radius) h = Ok (TFloat out))
  ∧ (∃ out,
      outcome (MorphologicalFilter.f gtf "close" radius) h = Ok (TFloat out)
      ∧ outcome (do d <- MorphologicalFilter.f gtf "dilate" radius in
                 MorphologicalFilter.f d "erode" radius) h = Ok (TFloat out)).
Proof.
  intros Ht Hr.
  assert (Hnz : (radius =? 0) = false) by (apply Z.eqb_neq; lia).
  assert (Hpos : 0 ≤ radius) by lia.
  split.
  - destruct (FT.erode (torch.as_float t) radius) as [e|] eqn:He; cycle 1.
    { unfold FT.erode, FT.patch_min in He. by rewrite patch_stat_ok in He. }
    destruct (FT.dilate e radius) as [out|] eqn:Hd; cycle 1.
    { unfold FT.dilate, FT.patch_max in Hd. by rewrite patch_stat_ok in Hd. }
    exists out. unfold outcome, MorphologicalFilter.f, bind, ret.
    rewrite Hnz. simpl.
    rewrite !(lift1_run _ _ _ _ Ht). unfold FT.open. rewrite He. simpl.
    rewrite Hd.
    rewrite (lift1_run _ _ _ _ (lookup_alloc h (TFloat e))). simpl.
    rewrite Hd. by rewrite !lookup_alloc.
  - destruct (FT.dilate (torch.as_float t) radius) as [d|] eqn:Hd; cycle 1.
    { unfold FT.dilate, FT.patch_max in Hd. by rewrite patch_stat_ok in Hd. }
    destruct (FT.erode d radius) as [out|] eqn:He; cycle 1.
    { unfold FT.erode, FT.patch_min in He. by rewrite patch_stat_ok in He. }
    exists out. unfold outcome, MorphologicalFilter.f, bind, ret.
    rewrite Hnz. simpl.
    rewrite !(lift1_run _ _ _ _ Ht). unfold FT.close. rewrite Hd. simpl.
    rewrite He.
    rewrite (lift1_run _ _ _ _ (lookup_alloc h (TFloat d))). simpl.
    rewrite He. by rewrite !lookup_alloc.
Qed.

(** ** Allocation and aliasing *)

Ltac fresh_result :=
  match goal with
  | Hin : ?h !! ?a = Some _ |- _ =>
      split; [apply preserved_alloc|];
      left; split; [apply fresh_length|];
      split; [rewrite lookup_alloc; eauto|]
  end.

Lemma not_elem_of_inputs1 (h : heap) (a : ref) t :
  h !! a = Some t → length h ∉ [a].
Proof.
  intros Ha Hin. apply lookup_lt_Some in Ha.
  apply list_elem_of_singleton in Hin. rewrite <- Hin in Ha. lia.
Qed.

Lemma not_elem_of_inputs2 (h : heap) (a b : ref) ta tb :
  h !! a = Some ta → h !! b = Some tb → length h ∉ [a; b].
Proof.
  intros Ha Hb Hin. apply lookup_lt_Some in Ha, Hb.
  apply elem_of_cons in Hin as [Hin|Hin%list_elem_of_singleton];
    rewrite <- Hin in *; lia.
Qed.

(** C5 (as the code has it): a call of any registered filter that returns
    leaves every object of the store as it was, and its result is a newly
    allocated tensor, at an address that held nothing before and is none of
    the arguments, with one exception: the morphological filter with radius
    0 returns its argument itself and allocates nothing. *)
Theorem filters_allocate_or_alias
  (impl : gtf_impl) (c : call) (h : heap) (r : ref) (h' : heap) :
  run impl c h = Ok (r, h') →
  preserved h h'
  ∧ ((fresh h r ∧ is_Some (h' !! r) ∧ r ∉ inputs c)
     ∨ (∃ gtf operation,
          c = CallMorphological gtf operation 0 ∧ r = gtf ∧ h' = h)).
Proof.
  destruct c; simpl; intros Hrun.
  all: try (apply lift1_ok in Hrun as (t & g & Ha & _ & -> & ->);
            fresh_result; by eapply not_elem_of_inputs1).
  all: try (apply lift2_ok in Hrun as (ta & tb & g & Ha & Hb & _ & -> & ->);
            fresh_result; by eapply not_elem_of_inputs2).
  - (* BinaryThreshold *)
    apply binary_threshold_ok in Hrun as (ta & tb & m & Ha & Hb & _ & -> & ->).
    split.
    { eapply preserved_trans; [apply preserved_alloc|].
      rewrite app_assoc. apply preserved_alloc. }
    left. split; [apply lookup_ge_None_2; lia|].
    split; [rewrite lookup_alloc2; eauto|].
    apply lookup_lt_Some in Ha, Hb. intros Hin.
    apply elem_of_cons in Hin as [Heq|Hin%list_elem_of_singleton]; lia.
  - (* MorphologicalFilter *)
    apply morphological_ok in Hrun
      as [(-> & -> & ->)|(Hr & t & g & Ha & -> & ->)].
    + split; [apply preserved_refl|]. right. eauto.
    + fresh_result. by eapply not_elem_of_inputs1.
Qed.

Lemma filters_allocate_or_alias_witness :
  preserved sample_heap
    (sample_heap
       ++ [TBool (Grid (Shape 1 1 2 2) [true; false; false; true])]
       ++ [TFloat (Grid (Shape 1 1 2 2) [F32.one; F32.zero; F32.zero; F32.one])])
  ∧ ((fresh sample_heap 3%nat
      ∧ is_Some ((sample_heap
           ++ [TBool (Grid (Shape 1 1 2 2) [true; false; false; true])]
           ++ [TFloat (Grid (Shape 1 1 2 2)
                         [F32.one; F32.zero; F32.zero; F32.one])]) !! 3%nat)
      ∧ 3%nat ∉ inputs (CallBinaryThreshold 0%nat 1%nat))
     ∨ (∃ gtf operation,
          CallBinaryThreshold 0%nat 1%nat = CallMorphological gtf operation 0
          ∧ 3%nat = gtf
          ∧ sample_heap
              ++ [TBool (Grid (Shape 1 1 2 2) [true; false; false; true])]
              ++ [TFloat (Grid (Shape 1 1 2 2)
                            [F32.one; F32.zero; F32.zero; F32.one])]
            = sample_heap)).
Proof.
  apply (filters_allocate_or_alias sample_impl
           (CallBinaryThreshold 0%nat 1%nat) sample_heap).
  vm_compute. reflexivity.
Defined.

(** C5, the claim as stated fails: the morphological filter with radius 0
    returns the reference it was given, which is the address of an object of
    the store and is its own argument, not a new allocation. *)
Lemma filters_allocate_counterexample :
  run sample_impl (CallMorphological 0%nat "dilate" 0) sample_heap
  = Ok (0%nat, sample_heap)
  ∧ ¬ fresh sample_heap 0%nat
  ∧ 0%nat ∈ inputs (CallMorphological 0%nat "dilate" 0).
Proof.
  split; [reflexivity|]. split; [by intros [=]|].
  simpl. by apply list_elem_of_singleton.
Qed.

(** ** Declared radius constraints *)

(** C6 (as the code has it): the four patch filters declare a radius with
    minimum 0, so the declaration admits exactly the radii that are at least
    0; the morphological filter declares its radius with minimum 1, so its
    declaration admits exactly the radii that are at least 1, and radius 0 is
    not among them. *)
Theorem radius_declarations :
  (∀ its, its ∈ patch_filter_inputs →
     declared_min its "radius" = Some 0
     ∧ ∀ r, admits_int its "radius" r = true ↔ 0 ≤ r)
  ∧ declared_min MorphologicalFilter.INPUT_TYPES "radius" = Some 1
  ∧ (∀ r, admits_int MorphologicalFilter.INPUT_TYPES "radius" r = true ↔ 1 ≤ r).
Proof.
  split; [|split].
  - intros its Hin. unfold patch_filter_inputs in Hin.
    repeat (apply elem_of_cons in Hin as [->|Hin]);
      [| | | |by apply elem_of_nil in Hin].
    all: split; [reflexivity|].
    all: intros r; unfold admits_int; simpl;
      rewrite andb_true_r; apply Z.leb_le.
  - reflexivity.
  - intros r. unfold admits_int. simpl. rewrite andb_true_r. apply Z.leb_le.
Qed.

Lemma radius_declarations_witness :
  declared_min MinFilter.INPUT_TYPES "radius" = Some 0
  ∧ admits_int MinFilter.INPUT_TYPES "radius" 0 = true.
Proof.
  destruct radius_declarations as [Hpatch _].
  destruct (Hpatch MinFilter.INPUT_TYPES) as [Hmin Hadm].
  - unfold patch_filter_inputs. apply list_elem_of_further, list_elem_of_here.
  - split; [exact Hmin|]. apply Hadm. lia.
Defined.

(** C6, the claim as stated fails: the radius the morphological filter
    declares does not have minimum 0, and the declaration rejects radius 0. *)
Lemma radius_declarations_counterexample :
  declared_min MorphologicalFilter.INPUT_TYPES "radius" ≠ Some 0
  ∧ 0 ≤ 0
  ∧ admits_int MorphologicalFilter.INPUT_TYPES "radius" 0 = false.
Proof. split; [discriminate|]. split; [lia|reflexivity]. Qed.

Lemma morphological_open_close_witness :
  outcome (MorphologicalFilter.f 0%nat "open" 1) gap_heap
  = Ok (TFloat (strip [F32.zero; F32.zero; F32.zero]))
  ∧ outcome (do e <- MorphologicalFilter.f 0%nat "erode" 1 in
             MorphologicalFilter.f e "dilate" 1) gap_heap
    = Ok (TFloat (strip [F32.zero; F32.zero; F32.zero]))
  ∧ outcome (MorphologicalFilter.f 0%nat "close" 1) gap_heap
    = Ok (TFloat (strip [F32.one; F32.one; F32.one]))
  ∧ outcome (do d <- MorphologicalFilter.f 0%nat "dilate" 1 in
             MorphologicalFilter.f d "erode" 1) gap_heap
    = Ok (TFloat (strip [F32.one; F32.one; F32.one])).
Proof.
  destruct (morphological_open_close 0%nat (TFloat gap_row) 1 gap_heap)
    as [(opened & Hopen & Hopen') (closed & Hclose & Hclose')];
    [reflexivity|lia|].
  assert (Eopen : outcome (MorphologicalFilter.f 0%nat "open" 1) gap_heap
                  = Ok (TFloat (strip [F32.zero; F32.zero; F32.zero])))
    by (vm_compute; reflexivity).
  assert (Eclose : outcome (MorphologicalFilter.f 0%nat "close" 1) gap_heap
                   = Ok (TFloat (strip [F32.one; F32.one; F32.one])))
    by (vm_compute; reflexivity).
  rewrite Eopen in Hopen. rewrite Eclose in Hclose.
  assert (opened = strip [F32.zero; F32.zero; F32.zero]) as -> by congruence.
  assert (closed = strip [F32.one; F32.one; F32.one]) as -> by congruence.
  repeat split; assumption.
Defined.

(** ** Binary threshold *)

Lemma decode_nan b : F32.is_nan b = true ↔ F32.decode b = S754_nan.
Proof.
  unfold F32.is_nan, F32.decode.
  generalize (F32.exponent b) (F32.mantissa b) (F32.sign_bit b).
  intros e m s.
  destruct (e =? 255); cbn [andb negb].
  - destruct (m =? 0); cbn [negb]; split; congruence.
  - split; [congruence|].
    destruct (e =? 0).
    + destruct m; congruence.
    + destruct (m + 8388608); congruence.
Qed.

Lemma SFcompare_refl d : d ≠ S754_nan → SFcompare d d = Some Eq.
Proof.
  destruct d as [s|s| |s m e]; simpl; intros Hd; try done.
  - by destruct s.
  - rewrite Z.compare_refl, Pos.compare_cont_refl. by destruct s.
Qed.

Lemma ge_nan_l x y : F32.is_nan x = true → F32.ge x y = false.
Proof.
  intros Hx%decode_nan. unfold F32.ge, SFleb. rewrite Hx.
  by destruct (F32.decode y).
Qed.

Lemma ge_nan_r x y : F32.is_nan y = true → F32.ge x y = false.
Proof.
  intros Hy%decode_nan. unfold F32.ge, SFleb. by rewrite Hy.
Qed.

Lemma ge_refl x : F32.is_nan x = false → F32.ge x x = true.
Proof.
  intros Hx. unfold F32.ge, SFleb. rewrite SFcompare_refl; [done|].
  intros Hd%decode_nan. congruence.
Qed.

Lemma ge_self x : F32.ge x x = negb (F32.is_nan x).
Proof.
  destruct (F32.is_nan x) eqn:Hx; simpl.
  - by apply ge_nan_l.
  - by apply ge_refl.
Qed.

Section Broadcast.
Local Open Scope nat_scope.

Lemma offset_lt (s : shape4) n c i j :
  in_range s n c i j → offset s n c i j < numel s.
Proof.
  intros (Hn & Hc & Hi & Hj). unfold offset, numel.
  apply block_index_lt; [|done].
  apply block_index_lt; [|done].
  by apply block_index_lt.
Qed.

Lemma gget_is_Some {A} (g : grid A) n c i j :
  wf g → in_range (shape g) n c i j → is_Some (gget g n c i j).
Proof.
  intros Hwf Hin. apply lookup_lt_is_Some. rewrite Hwf. by apply offset_lt.
Qed.

Lemma broadcast_dim_bidx_l a b d k :
  torch.broadcast_dim a b = Some d → k < d → torch.bidx a k < a.
Proof.
  unfold torch.broadcast_dim, torch.bidx. intros Hd Hk.
  repeat case_decide; simplify_eq; lia.
Qed.

Lemma broadcast_dim_bidx_r a b d k :
  torch.broadcast_dim a b = Some d → k < d → torch.bidx b k < b.
Proof.
  unfold torch.broadcast_dim, torch.bidx. intros Hd Hk.
  repeat case_decide; simplify_eq; lia.
Qed.

Lemma broadcast_shapes_inv s t u :
  torch.broadcast_shapes s t = Some u →
  torch.broadcast_dim (dimN s) (dimN t) = Some (dimN u)
  ∧ torch.broadcast_dim (dimC s) (dimC t) = Some (dimC u)
  ∧ torch.broadcast_dim (dimH s) (dimH t) = Some (dimH u)
  ∧ torch.broadcast_dim (dimW s) (dimW t) = Some (dimW u).
Proof.
  unfold torch.broadcast_shapes. intros Hu.
  destruct (torch.broadcast_dim (dimN s) (dimN t)); [|done].
  destruct (torch.broadcast_dim (dimC s) (dimC t)); [|done].
  destruct (torch.broadcast_dim (dimH s) (dimH t)); [|done].
  destruct (torch.broadcast_dim (dimW s) (dimW t)); [|done].
  simpl in Hu. by injection Hu as <-.
Qed.

Lemma broadcast_dim_same a : torch.broadcast_dim a a = Some a.
Proof. unfold torch.broadcast_dim. by case_decide. Qed.

Lemma broadcast_shapes_same s : torch.broadcast_shapes s s = Some s.
Proof.
  unfold torch.broadcast_shapes. rewrite !broadcast_dim_same. simpl.
  by destruct s.
Qed.

Lemma bidx_in_range d k : k < d → torch.bidx d k = k.
Proof. unfold torch.bidx. intros Hk. case_decide; lia. Qed.

(** An operand has an element at every index of the broadcast result. *)
Lemma bget_is_Some_l {A} (g : grid A) (t u : shape4) n c i j :
  wf g → torch.broadcast_shapes (shape g) t = Some u →
  in_range u n c i j → is_Some (torch.bget g n c i j).
Proof.
  intros Hwf (HN & HC & HH & HW)%broadcast_shapes_inv (Hn & Hc & Hi & Hj).
  apply gget_is_Some; [done|].
  repeat split; eauto using broadcast_dim_bidx_l.
Qed.

Lemma bget_is_Some_r {A} (g : grid A) (s u : shape4) n c i j :
  wf g → torch.broadcast_shapes s (shape g) = Some u →
  in_range u n c i j → is_Some (torch.bget g n c i j).
Proof.
  intros Hwf (HN & HC & HH & HW)%broadcast_shapes_inv (Hn & Hc & Hi & Hj).
  apply gget_is_Some; [done|].
  repeat split; eauto using broadcast_dim_bidx_r.
Qed.

Lemma bget_in_range {A} (g : grid A) n c i j :
  in_range (shape g) n c i j → torch.bget g n c i j = gget g n c i j.
Proof.
  intros (Hn & Hc & Hi & Hj). unfold torch.bget.
  by rewrite !bidx_in_range.
Qed.

Lemma gget_to_float_grid (m : grid bool) n c i j :
  gget (torch.to_float_grid m) n c i j = F32.of_bool <$> gget m n c i j.
Proof. unfold gget, torch.to_float_grid. simpl. apply list_lookup_fmap. Qed.

End Broadcast.

(** What a binary threshold call leaves behind: the float copy of the
    comparison mask. *)
Lemma binary_threshold_outcome gtf gtf_threshold (h : heap) g t s :
  h !! gtf = Some (TFloat g) → h !! gtf_threshold = Some (TFloat t) →
  torch.broadcast_shapes (shape g) (shape t) = Some s →
  outcome (BinaryThreshold.f gtf gtf_threshold) h
  = Ok (TFloat (torch.to_float_grid
                  (build s (λ n c i j,
                              F32.ge (torch.bat g n c i j) (torch.bat t n c i j))))).
Proof.
  intros Hg Ht Hs. unfold outcome.
  rewrite (binary_threshold_run _ _ _ _ _ Hg Ht).
  unfold torch.ge_grid, torch.as_float. rewrite Hs.
  by rewrite lookup_alloc2.
Qed.

(** C3: for a grid g and a threshold grid t whose shapes broadcast, the
    binary threshold returns a tensor of the broadcast shape whose element at
    every position is exactly 1.0 where the element of g there is >= the
    element of t there, and exactly 0.0 elsewhere; every element of the
    output is exactly 0.0 or 1.0. *)
Theorem binary_threshold_elementwise
  (gtf gtf_threshold : ref) (g t : grid Z) (s : shape4) (h : heap) :
  h !! gtf = Some (TFloat g) →
  h !! gtf_threshold = Some (TFloat t) →
  wf g → wf t →
  torch.broadcast_shapes (shape g) (shape t) = Some s →
  ∃ out,
    outcome (BinaryThreshold.f gtf gtf_threshold) h = Ok (TFloat out)
    ∧ shape out = s ∧ wf out
    ∧ (∀ n c i j, in_range s n c i j →
         ∃ x y, torch.bget g n c i j = Some x
                ∧ torch.bget t n c i j = Some y
                ∧ gget out n c i j
                  = Some (if F32.ge x y then F32.one else F32.zero))
    ∧ Forall (λ v, v = F32.zero ∨ v = F32.one) (data out).
Proof.
  intros Hg Ht Hwg Hwt Hs.
  eexists. split; [by apply binary_threshold_outcome|].
  split; [done|]. split.
  { unfold wf. cbn. by rewrite length_fmap, length_tabulate. }
  split.
  - intros n c i j Hin.
    destruct (bget_is_Some_l g (shape t) s n c i j) as [x Hx]; [done..|].
    destruct (bget_is_Some_r t (shape g) s n c i j) as [y Hy]; [done..|].
    exists x, y. split; [done|]. split; [done|].
    rewrite gget_to_float_grid, gget_build by done. cbn.
    unfold torch.bat. by rewrite Hx, Hy.
  - cbn. apply Forall_fmap, Forall_forall. intros b _. cbn.
    destruct b; auto.
Qed.

Lemma binary_threshold_elementwise_witness :
  ∃ out,
    outcome (BinaryThreshold.f 0%nat 1%nat) sample_heap = Ok (TFloat out)
    ∧ shape out = Shape 1 1 2 2 ∧ wf out
    ∧ (∀ n c i j, in_range (Shape 1 1 2 2) n c i j →
         ∃ x y, torch.bget sample_grid n c i j = Some x
                ∧ torch.bget sample_threshold n c i j = Some y
                ∧ gget out n c i j
                  = Some (if F32.ge x y then F32.one else F32.zero))
    ∧ Forall (λ v, v = F32.zero ∨ v = F32.one) (data out).
Proof.
  apply (binary_threshold_elementwise 0%nat 1%nat sample_grid sample_threshold
           (Shape 1 1 2 2) sample_heap); reflexivity.
Defined.

(** C10: when the element of g at a position is a NaN, the binary threshold
    of g against any threshold grid whose shape broadcasts with that of g has
    exactly 0.0 at that position: the comparison with a NaN is false, the
    threshold being what it may (a NaN too). *)
Theorem binary_threshold_nan
  (gtf gtf_threshold : ref) (g t : grid Z) (s : shape4) (h : heap)
  (n c i j : nat) (x : Z) :
  h !! gtf = Some (TFloat g) →
  h !! gtf_threshold = Some (TFloat t) →
  torch.broadcast_shapes (shape g) (shape t) = Some s →
  in_range s n c i j →
  torch.bget g n c i j = Some x →
  F32.is_nan x = true →
  ∃ out,
    outcome (BinaryThreshold.f gtf gtf_threshold) h = Ok (TFloat out)
    ∧ gget out n c i j = Some F32.zero.
Proof.
  intros Hg Ht Hs Hin Hx Hnan.
  eexists. split; [by apply binary_threshold_outcome|].
  rewrite gget_to_float_grid, gget_build by done. cbn.
  unfold torch.bat at 1. rewrite Hx. cbn.
  by rewrite ge_nan_l.
Qed.

Lemma binary_threshold_nan_witness :
  ∃ out,
    outcome (BinaryThreshold.f 0%nat 1%nat) sample_heap = Ok (TFloat out)
    ∧ gget out 0 0 1 0 = Some F32.zero.
Proof.
  apply (binary_threshold_nan 0%nat 1%nat sample_grid sample_threshold
           (Shape 1 1 2 2) sample_heap 0 0 1 0 F32.qnan);
    try reflexivity.
  unfold in_range. cbn. lia.
Defined.

(** C4 (as the code has it): thresholding a grid against itself yields 1.0
    at every element that is not a NaN and 0.0 at every NaN element; on a
    grid without NaN the result is 1.0 everywhere. *)
Theorem binary_threshold_self (gtf : ref) (g : grid Z) (h : heap) :
  h !! gtf = Some (TFloat g) →
  wf g →
  ∃ out,
    outcome (BinaryThreshold.f gtf gtf) h = Ok (TFloat out)
    ∧ shape out = shape g
    ∧ (∀ n c i j, in_range (shape g) n c i j →
         ∃ x, gget g n c i j = Some x
              ∧ gget out n c i j
                = Some (if F32.is_nan x then F32.zero else F32.one))
    ∧ (Forall (λ x, F32.is_nan x = false) (data g) →
       Forall (λ v, v = F32.one) (data out)).
Proof.
  intros Hg Hwf.
  eexists. split.
  { apply binary_threshold_outcome; [done..|]. apply broadcast_shapes_same. }
  split; [done|]. split.
  - intros n c i j Hin.
    destruct (gget_is_Some g n c i j) as [x Hx]; [done..|].
    exists x. split; [done|].
    rewrite gget_to_float_grid, gget_build by done. cbn.
    unfold torch.bat. rewrite bget_in_range, Hx by done. cbn.
    rewrite ge_self. by destruct (F32.is_nan x).
  - intros Hnan. cbn. apply Forall_fmap, Forall_forall.
    intros b (n & c & i & j & Hin & ->)%elem_of_tabulate. cbn.
    destruct (gget_is_Some g n c i j) as [x Hx]; [done..|].
    unfold torch.bat. rewrite bget_in_range, Hx by done. cbn.
    rewrite ge_self.
    assert (F32.is_nan x = false) as ->; [|done].
    rewrite Forall_forall in Hnan. apply Hnan.
    by eapply list_elem_of_lookup_2.
Qed.

Lemma binary_threshold_self_witness :
  ∃ out,
    outcome (BinaryThreshold.f 1%nat 1%nat) sample_heap = Ok (TFloat out)
    ∧ shape out = shape sample_threshold
    ∧ (∀ n c i j, in_range (shape sample_threshold) n c i j →
         ∃ x, gget sample_threshold n c i j = Some x
              ∧ gget out n c i j
                = Some (if F32.is_nan x then F32.zero else F32.one))
    ∧ (Forall (λ x, F32.is_nan x = false) (data sample_threshold) →
       Forall (λ v, v = F32.one) (data out)).
Proof.
  apply (binary_threshold_self 1%nat sample_threshold sample_heap);
    reflexivity.
Defined.

(** C4, the claim as stated fails: the sample grid holds a NaN at row 1,
    column 0, and its threshold against itself is 0.0 there, not 1. *)
Lemma binary_threshold_self_counterexample :
  outcome (BinaryThreshold.f 0%nat 0%nat) sample_heap
  = Ok (TFloat (Grid (Shape 1 1 2 2) [F32.one; F32.one; F32.zero; F32.one]))
  ∧ gget sample_grid 0 0 1 0 = Some F32.qnan
  ∧ F32.zero ≠ F32.one.
Proof. split; [vm_compute; reflexivity|]. split; [reflexivity|discriminate]. Qed.

(** ** Invert *)

Section ExactInvert.
Local Open Scope Q_scope.

Lemma Qmax_reflect (c a x y : Q) :
  a == c - x → Qmax a (c - y) == c - Qmin x y.
Proof.
  intros Ha.
  destruct (Q.max_spec a (c - y)) as [[? ->]|[? ->]];
    destruct (Q.min_spec x y) as [[? ->]|[? ->]]; lra.
Qed.

Lemma Qmin_reflect (c a x y : Q) :
  a == c - x → Qmin a (c - y) == c - Qmax x y.
Proof.
  intros Ha.
  destruct (Q.min_spec a (c - y)) as [[? ->]|[? ->]];
    destruct (Q.max_spec x y) as [[? ->]|[? ->]]; lra.
Qed.

(** The greatest element of the reflected list is the reflection of the
    smallest element, and the other way round. *)
Lemma foldl_Qmax_reflect (c : Q) (l : list Q) (a x : Q) :
  a == c - x →
  foldl Qmax a ((λ v, c - v) <$> l) == c - foldl Qmin x l.
Proof.
  revert a x. induction l as [|y l IH]; intros a x Ha; cbn; [done|].
  apply IH. by apply Qmax_reflect.
Qed.

Lemma foldl_Qmin_reflect (c : Q) (l : list Q) (a x : Q) :
  a == c - x →
  foldl Qmin a ((λ v, c - v) <$> l) == c - foldl Qmax x l.
Proof.
  revert a x. induction l as [|y l IH]; intros a x Ha; cbn; [done|].
  apply IH. by apply Qmin_reflect.
Qed.

Lemma invert_exact_involution (g : grid Q) :
  data g ≠ [] →
  ∃ g1 g2,
    U.invert_with q_arith g = Ok g1
    ∧ U.invert_with q_arith g1 = Ok g2
    ∧ shape g2 = shape g
    ∧ Forall2 Qeq (data g2) (data g).
Proof.
  intros Hne. destruct g as [s [|x l]]; [done|]. clear Hne.
  unfold U.invert_with. cbn.
  set (hi := foldl Qmax x l). set (lo := foldl Qmin x l).
  eexists. eexists. split; [reflexivity|]. cbn.
  split; [reflexivity|]. cbn. split; [reflexivity|].
  set (hi1 := foldl Qmax (hi + lo - x) ((λ v, hi + lo - v) <$> l)).
  set (lo1 := foldl Qmin (hi + lo - x) ((λ v, hi + lo - v) <$> l)).
  assert (Hhi1 : hi1 == hi + lo - lo)
    by (apply foldl_Qmax_reflect; reflexivity).
  assert (Hlo1 : lo1 == hi + lo - hi)
    by (apply foldl_Qmin_reflect; reflexivity).
  constructor; [lra|].
  rewrite <- list_fmap_compose. apply Forall2_fmap_l, Forall_Forall2_diag.
  apply Forall_forall. intros v _. cbn. lra.
Qed.

End ExactInvert.

(** *** The extrema of a NaN-free list *)

Lemma SFcompare_key d1 d2 :
  d1 ≠ S754_nan → d2 ≠ S754_nan →
  SFcompare d1 d2 = Some (lexcmp (key d1) (key d2)).
Proof.
  destruct d1 as [s1|s1| |s1 m1 e1], d2 as [s2|s2| |s2 m2 e2];
    intros H1 H2; try done.
  all: try (by destruct s1); try (by destruct s2);
       try (by destruct s1, s2).
  destruct s1, s2; try done; unfold SFcompare, key, lexcmp.
  rewrite Z.compare_refl, Z.compare_opp, (Z.compare_antisym e1 e2).
  by destruct (e1 ?= e2).
Qed.

Lemma lexcmp_refl k : lexcmp k k = Eq.
Proof. destruct k as [[a b] c]. cbn. by rewrite !Z.compare_refl. Qed.

Lemma lexcmp_antisym k1 k2 : lexcmp k2 k1 = CompOpp (lexcmp k1 k2).
Proof.
  destruct k1 as [[a1 b1] c1], k2 as [[a2 b2] c2]. cbn.
  rewrite (Z.compare_antisym a1 a2), (Z.compare_antisym b1 b2),
    (Z.compare_antisym c1 c2).
  destruct (a1 ?= a2); cbn; try done.
  by destruct (b1 ?= b2).
Qed.

Lemma lexcmp_le_trans k1 k2 k3 :
  lexcmp k1 k2 ≠ Gt → lexcmp k2 k3 ≠ Gt → lexcmp k1 k3 ≠ Gt.
Proof.
  destruct k1 as [[a1 b1] c1], k2 as [[a2 b2] c2], k3 as [[a3 b3] c3]. cbn.
  destruct (Z.compare_spec a1 a2), (Z.compare_spec a2 a3),
    (Z.compare_spec a1 a3); try lia; try done;
  destruct (Z.compare_spec b1 b2), (Z.compare_spec b2 b3),
    (Z.compare_spec b1 b3); try lia; try done;
  destruct (Z.compare_spec c1 c2), (Z.compare_spec c2 c3),
    (Z.compare_spec c1 c3); try lia; done.
Qed.

Lemma ge_key a b :
  F32.is_nan a = false → F32.is_nan b = false →
  F32.ge a b = true ↔ lexcmp (key (F32.decode b)) (key (F32.decode a)) ≠ Gt.
Proof.
  intros Ha Hb. unfold F32.ge, SFleb.
  rewrite SFcompare_key.
  - destruct (lexcmp _ _); split; congruence.
  - intros Hd%decode_nan. congruence.
  - intros Hd%decode_nan. congruence.
Qed.

Lemma lt_key a b :
  F32.is_nan a = false → F32.is_nan b = false →
  F32.lt a b = true ↔ lexcmp (key (F32.decode a)) (key (F32.decode b)) = Lt.
Proof.
  intros Ha Hb. unfold F32.lt, SFltb.
  rewrite SFcompare_key.
  - destruct (lexcmp _ _); split; congruence.
  - intros Hd%decode_nan. congruence.
  - intros Hd%decode_nan. congruence.
Qed.

Lemma ge_not_nan a b :
  F32.ge a b = true → F32.is_nan a = false ∧ F32.is_nan b = false.
Proof.
  intros Hge. split.
  - destruct (F32.is_nan a) eqn:Ha; [|done]. by rewrite ge_nan_l in Hge.
  - destruct (F32.is_nan b) eqn:Hb; [|done]. by rewrite ge_nan_r in Hge.
Qed.

Lemma ge_trans a b c : F32.ge a b = true → F32.ge b c = true → F32.ge a c = true.
Proof.
  intros Hab Hbc.
  destruct (ge_not_nan _ _ Hab) as [Ha Hb].
  destruct (ge_not_nan _ _ Hbc) as [_ Hc].
  apply ge_key in Hab, Hbc; [|done..]. apply ge_key; [done..|].
  by eapply lexcmp_le_trans.
Qed.

Lemma max_spec a b :
  F32.is_nan a = false → F32.is_nan b = false →
  (F32.max a b = a ∨ F32.max a b = b)
  ∧ F32.ge (F32.max a b) a = true ∧ F32.ge (F32.max a b) b = true.
Proof.
  intros Ha Hb. unfold F32.max. rewrite Ha, Hb.
  destruct (F32.lt a b) eqn:Hlt.
  - split; [by right|]. split; [|by apply ge_refl].
    apply lt_key in Hlt; [|done..]. apply ge_key; [done..|]. congruence.
  - split; [by left|]. split; [by apply ge_refl|].
    apply ge_key; [done..|].
    assert (Hn : lexcmp (key (F32.decode a)) (key (F32.decode b)) ≠ Lt).
    { intros Hk. apply lt_key in Hk; [|done..]. congruence. }
    rewrite lexcmp_antisym. by destruct (lexcmp _ _).
Qed.

Lemma min_spec a b :
  F32.is_nan a = false → F32.is_nan b = false →
  (F32.min a b = a ∨ F32.min a b = b)
  ∧ F32.ge a (F32.min a b) = true ∧ F32.ge b (F32.min a b) = true.
Proof.
  intros Ha Hb. unfold F32.min. rewrite Ha, Hb.
  destruct (F32.lt b a) eqn:Hlt.
  - split; [by right|]. split; [|by apply ge_refl].
    apply lt_key in Hlt; [|done..]. apply ge_key; [done..|]. congruence.
  - split; [by left|]. split; [by apply ge_refl|].
    apply ge_key; [done..|].
    assert (Hn : lexcmp (key (F32.decode b)) (key (F32.decode a)) ≠ Lt).
    { intros Hk. apply lt_key in Hk; [|done..]. congruence. }
    rewrite lexcmp_antisym in Hn. by destruct (lexcmp _ _).
Qed.

(** On a list without NaN, folding [F32.max] returns an element of the list
    that is >= every element; folding [F32.min], one that every element
    is >=. *)
Lemma foldl_max_extremum (l : list Z) (x : Z) :
  Forall (λ v, F32.is_nan v = false) (x :: l) →
  foldl F32.max x l ∈ x :: l
  ∧ ∀ v, v ∈ x :: l → F32.ge (foldl F32.max x l) v = true.
Proof.
  revert x. induction l as [|y l IH]; intros x Hnan; cbn.
  - split; [apply list_elem_of_here|].
    intros v ->%list_elem_of_singleton. apply ge_refl.
    by apply Forall_inv in Hnan.
  - apply Forall_cons in Hnan as [Hx Hnan].
    pose proof Hnan as [Hy Hl]%Forall_cons.
    destruct (max_spec x y Hx Hy) as (Hsel & Hgx & Hgy).
    destruct (IH (F32.max x y)) as [Hin Hge].
    { apply Forall_cons. split; [|done]. by destruct Hsel as [->| ->]. }
    split.
    + apply elem_of_cons in Hin as [->|Hin].
      * destruct Hsel as [->| ->]; [apply list_elem_of_here|].
        apply list_elem_of_further, list_elem_of_here.
      * by do 2 apply list_elem_of_further.
    + intros v Hv.
      assert (Hm : F32.ge (foldl F32.max (F32.max x y) l) (F32.max x y) = true)
        by apply Hge, list_elem_of_here.
      apply elem_of_cons in Hv as [->|Hv]; [by eapply ge_trans|].
      apply elem_of_cons in Hv as [->|Hv]; [by eapply ge_trans|].
      by apply Hge, list_elem_of_further.
Qed.

Lemma foldl_min_extremum (l : list Z) (x : Z) :
  Forall (λ v, F32.is_nan v = false) (x :: l) →
  foldl F32.min x l ∈ x :: l
  ∧ ∀ v, v ∈ x :: l → F32.ge v (foldl F32.min x l) = true.
Proof.
  revert x. induction l as [|y l IH]; intros x Hnan; cbn.
  - split; [apply list_elem_of_here|].
    intros v ->%list_elem_of_singleton. apply ge_refl.
    by apply Forall_inv in Hnan.
  - apply Forall_cons in Hnan as [Hx Hnan].
    pose proof Hnan as [Hy Hl]%Forall_cons.
    destruct (min_spec x y Hx Hy) as (Hsel & Hgx & Hgy).
    destruct (IH (F32.min x y)) as [Hin Hge].
    { apply Forall_cons. split; [|done]. by destruct Hsel as [->| ->]. }
    split.
    + apply elem_of_cons in Hin as [->|Hin].
      * destruct Hsel as [->| ->]; [apply list_elem_of_here|].
        apply list_elem_of_further, list_elem_of_here.
      * by do 2 apply list_elem_of_further.
    + intros v Hv.
      assert (Hm : F32.ge (F32.min x y) (foldl F32.min (F32.min x y) l) = true)
        by apply Hge, list_elem_of_here.
      apply elem_of_cons in Hv as [->|Hv]; [by eapply ge_trans|].
      apply elem_of_cons in Hv as [->|Hv]; [by eapply ge_trans|].
      by apply Hge, list_elem_of_further.
Qed.

(** On floats the round trip of invert hangs on the order of the
    operations. With the one-pixel grid that holds the largest finite number,
    (max_val + min_val) - g overflows, so the second inversion yields a NaN;
    (max_val - g) + min_val gives the grid back. With a pixel at +infinity
    both orders end in a NaN. *)
Lemma invert_round_trip_order :
  rbind (U.invert huge_grid) U.invert = Ok nan_grid
  ∧ rbind (U.invert_left_with f32_arith huge_grid)
      (U.invert_left_with f32_arith) = Ok huge_grid
  ∧ rbind (U.invert inf_grid) U.invert = Ok nan_grid
  ∧ rbind (U.invert_left_with f32_arith inf_grid)
      (U.invert_left_with f32_arith) = Ok nan_grid.
Proof. repeat split; vm_compute; reflexivity. Qed.

(** ** Hysteresis threshold *)

Lemma of_bool_one b : F32.of_bool b = F32.one ↔ b = true.
Proof. destruct b; split; done. Qed.

Lemma is_set_build (s : shape4) (f : nat → nat → nat → nat → bool) n c i j :
  in_range s n c i j →
  FT.is_set (build s (λ n c i j, F32.of_bool (f n c i j))) n c i j = f n c i j.
Proof.
  intros Hin. unfold FT.is_set. rewrite gget_build by done.
  destruct (f n c i j); [by apply bool_decide_eq_true|].
  by apply bool_decide_eq_false.
Qed.

Lemma canonical_build (s : shape4) (f : nat → nat → nat → nat → bool) :
  canonical (build s (λ n c i j, F32.of_bool (f n c i j))).
Proof.
  unfold canonical. cbn [data shape build].
  apply tabulate_ext. intros n c i j Hin. by rewrite is_set_build.
Qed.

Lemma canonical_wf g : canonical g → wf g.
Proof. unfold canonical, wf. intros ->. apply length_tabulate. Qed.

Lemma canonical_binary g : canonical g → binary_mask g.
Proof.
  unfold canonical, binary_mask. intros ->.
  apply Forall_forall. intros v (n & c & i & j & _ & ->)%elem_of_tabulate.
  destruct (FT.is_set g n c i j); auto.
Qed.

Lemma Forall2_tabulate {A} (R : A → A → Prop) (s : shape4)
    (f g : nat → nat → nat → nat → A) :
  (∀ n c i j, R (f n c i j) (g n c i j)) →
  Forall2 R (tabulate s f) (tabulate s g).
Proof.
  intros HR. unfold tabulate.
  apply Forall2_bind, Forall_Forall2_diag, Forall_forall. intros n _.
  apply Forall2_bind, Forall_Forall2_diag, Forall_forall. intros c _.
  apply Forall2_bind, Forall_Forall2_diag, Forall_forall. intros i _.
  apply Forall2_bind, Forall_Forall2_diag, Forall_forall. intros j _.
  by constructor.
Qed.

(** *** Counting the pixels of a mask *)

Lemma count_grew (l1 l2 : list Z) :
  Forall2 grew l1 l2 →
  (length (filter (λ v, v = F32.one) l1) ≤ length (filter (λ v, v = F32.one) l2)
   ∧ (l1 ≠ l2 →
      length (filter (λ v, v = F32.one) l1)
      < length (filter (λ v, v = F32.one) l2)))%nat.
Proof.
  induction 1 as [|a b l1 l2 Hab Hl [IHle IHlt]]; [by split|].
  rewrite !filter_cons.
  destruct Hab as [->|[Ha ->]].
  - case_decide; cbn [length]; (split; [lia|]);
      intros Hne; (assert (l1 ≠ l2) as Hl' by congruence);
      specialize (IHlt Hl'); lia.
  - rewrite decide_False by done. rewrite decide_True by done.
    cbn [length]. split; [lia|]. intros _. lia.
Qed.

Lemma filter_full {A} (P : A → Prop) `{∀ x, Decision (P x)} (l : list A) :
  (length l ≤ length (filter P l))%nat → Forall P l.
Proof.
  induction l as [|x l IH]; [done|]. rewrite filter_cons.
  pose proof (length_filter P l).
  case_decide; cbn [length]; intros Hlen; [|lia].
  constructor; [done|]. apply IH. lia.
Qed.

Lemma count_set_le g : canonical g → (count_set g ≤ numel (shape g))%nat.
Proof.
  intros Hc%canonical_wf. unfold count_set. rewrite <- Hc.
  apply length_filter.
Qed.

Lemma count_set_full g n c i j :
  canonical g → (numel (shape g) ≤ count_set g)%nat →
  in_range (shape g) n c i j → FT.is_set g n c i j = true.
Proof.
  intros Hc Hfull Hin. pose proof (canonical_wf g Hc) as Hwf.
  unfold count_set in Hfull. rewrite <- Hwf in Hfull.
  apply filter_full in Hfull.
  destruct (gget_is_Some g n c i j Hwf Hin) as [v Hv].
  unfold FT.is_set. apply bool_decide_eq_true. rewrite Hv. f_equal.
  rewrite Forall_forall in Hfull. apply Hfull.
  by eapply list_elem_of_lookup_2.
Qed.

(** *** One pass *)

Lemma neighbours_bounds offs (s : shape4) (i j i' j' : nat) :
  (i', j') ∈ FT.neighbours offs s i j → (i' < dimH s ∧ j' < dimW s)%nat.
Proof.
  unfold FT.neighbours. intros ([di dj] & _ & Hq)%list_elem_of_omap.
  case_match eqn:Hb; [|done]. injection Hq as <- <-.
  apply andb_prop in Hb as [Hb H4]. apply andb_prop in Hb as [Hb H3].
  apply andb_prop in Hb as [H1 H2].
  apply Z.leb_le in H1, H3. apply Z.ltb_lt in H2, H4. lia.
Qed.

Lemma pass_shape offs weak cur : shape (FT.pass offs weak cur) = shape cur.
Proof. done. Qed.

Lemma pass_canonical offs weak cur : canonical (FT.pass offs weak cur).
Proof. apply canonical_build. Qed.

Lemma is_set_pass offs weak cur n c i j :
  in_range (shape cur) n c i j →
  FT.is_set (FT.pass offs weak cur) n c i j
  = FT.is_set cur n c i j
    || (FT.is_set weak n c i j
        && existsb (λ '(i', j'), FT.is_set cur n c i' j')
             (FT.neighbours offs (shape cur) i j)).
Proof. intros Hin. unfold FT.pass. by rewrite is_set_build. Qed.

Lemma pass_grew offs weak cur :
  canonical cur → Forall2 grew (data cur) (data (FT.pass offs weak cur)).
Proof.
  intros Hc. rewrite Hc. unfold FT.pass. cbn [data build].
  apply Forall2_tabulate. intros n c i j. unfold grew.
  destruct (FT.is_set cur n c i j); cbn [orb]; [by left|].
  destruct (_ && _); [right|left]; done.
Qed.

Lemma pass_stable offs weak cur :
  data (FT.pass offs weak cur) = data cur → FT.pass offs weak cur = cur.
Proof.
  intros Hd. destruct cur as [s d]. unfold FT.pass, build in *.
  cbn [data shape] in *. by rewrite Hd.
Qed.

Section Flood.
Context (offs : list (Z * Z)) (weak strong : grid Z).
Context (Hshape : shape weak = shape strong).

Local Abbreviation flood_inv := (flood_invariant offs weak strong).

Lemma pass_inv cur : flood_inv cur → flood_inv (FT.pass offs weak cur).
Proof.
  unfold flood_invariant.
  intros (Hs & Hc & Hsound). split; [by rewrite pass_shape|].
  split; [apply pass_canonical|].
  intros n c i j Hin. rewrite is_set_pass by by rewrite Hs.
  intros [Hcur|[Hweak Hex]%andb_prop]%orb_prop; [by apply Hsound|].
  apply existsb_exists in Hex as ([i' j'] & Hq%list_elem_of_In & Hset).
  rewrite Hs in Hq.
  destruct (neighbours_bounds _ _ _ _ _ _ Hq) as [Hi' Hj'].
  destruct (Hsound n c i' j') as (q & Hq1 & Hq2 & Hstrong & Hpath).
  { unfold in_range in *. lia. }
  { done. }
  exists q. repeat split; try done.
  eapply rtc_r; [exact Hpath|].
  unfold step_with. cbn [fst snd]. rewrite Hshape.
  unfold in_range in Hin. repeat split; try done; lia.
Qed.

Lemma pass_extensive cur n c i j :
  in_range (shape cur) n c i j →
  FT.is_set cur n c i j = true →
  FT.is_set (FT.pass offs weak cur) n c i j = true.
Proof. intros Hin Hset. rewrite is_set_pass by done. by rewrite Hset. Qed.

(** The loop returns a mask that a further pass leaves alone, or it has
    added a pixel in each of its [fuel] passes. *)
Lemma propagate_spec fuel cur :
  flood_inv cur →
  flood_inv (FT.propagate offs fuel weak cur)
  ∧ (∀ n c i j, in_range (shape strong) n c i j →
       FT.is_set cur n c i j = true →
       FT.is_set (FT.propagate offs fuel weak cur) n c i j = true)
  ∧ (FT.pass offs weak (FT.propagate offs fuel weak cur)
     = FT.propagate offs fuel weak cur
     ∨ (count_set cur + fuel ≤ count_set (FT.propagate offs fuel weak cur))%nat).
Proof.
  revert cur. induction fuel as [|fuel IH]; intros cur Hinv; cbn [FT.propagate].
  { split; [done|]. split; [done|]. right. lia. }
  case_bool_decide as Hstable.
  { split; [done|]. split; [done|]. left. by apply pass_stable. }
  destruct (IH (FT.pass offs weak cur) (pass_inv cur Hinv))
    as (Hinv' & Hext & Hend).
  split; [done|]. split.
  - intros n c i j Hin Hset. apply Hext; [done|].
    apply pass_extensive; [|done]. destruct Hinv as (-> & _). done.
  - destruct Hend as [Hfix|Hcount]; [by left|right].
    destruct Hinv as (_ & Hc & _).
    destruct (count_grew _ _ (pass_grew offs weak cur Hc)) as [_ Hlt].
    unfold count_set in *. specialize (Hlt ltac:(congruence)). lia.
Qed.

(** A mask that a pass leaves alone holds every weak pixel that has a
    neighbour in it. *)
Lemma stable_closed r n c i j i' j' :
  FT.pass offs weak r = r →
  in_range (shape r) n c i j →
  (i', j') ∈ FT.neighbours offs (shape r) i j →
  FT.is_set r n c i' j' = true →
  FT.is_set weak n c i j = true →
  FT.is_set r n c i j = true.
Proof.
  intros Hfix Hin Hq Hset Hweak. rewrite <- Hfix.
  rewrite is_set_pass by done. rewrite Hweak. cbn [andb].
  apply orb_true_intro. right. apply existsb_exists.
  exists (i', j'). split; [by apply list_elem_of_In|done].
Qed.

Lemma hysteresis_with_spec :
  ∃ out,
    FT.hysteresis_with offs weak strong = Ok out
    ∧ shape out = shape strong
    ∧ canonical out
    ∧ ∀ n c i j, in_range (shape strong) n c i j →
        (FT.is_set out n c i j = true
         ↔ connected_with offs weak strong n c (i, j)).
Proof.
  unfold FT.hysteresis_with. rewrite decide_True by done.
  set (seeds := build (shape strong)
                  (λ n c i j, F32.of_bool (FT.is_set strong n c i j))).
  assert (Hseeds : flood_inv seeds).
  { split; [done|]. split; [apply canonical_build|].
    intros n c i j Hin. unfold seeds. rewrite is_set_build by done.
    intros Hstrong. exists (i, j). unfold in_range in Hin.
    cbn [fst snd]. repeat split; try done; lia. }
  destruct (propagate_spec (numel (shape strong)) seeds Hseeds)
    as ((Hs & Hc & Hsound) & Hext & Hend).
  set (out := FT.propagate offs (numel (shape strong)) weak seeds) in *.
  exists out. split; [done|]. split; [done|]. split; [done|].
  intros n c i j Hin. split; [by apply Hsound|].
  intros (q & Hq1 & Hq2 & Hstrong & Hpath).
  assert (Hnc : (n < dimN (shape strong) ∧ c < dimC (shape strong))%nat)
    by (unfold in_range in Hin; lia).
  assert (Hgoal : ∀ p, rtc (step_with offs weak n c) q p →
                       (p.1 < dimH (shape strong)
                        ∧ p.2 < dimW (shape strong))%nat
                       → FT.is_set out n c p.1 p.2 = true).
  2:{ apply (Hgoal (i, j) Hpath). unfold in_range in Hin.
      cbn [fst snd]. lia. }
  clear i j Hin Hpath. intros p Hpath. revert p Hpath.
  apply (rtc_ind_r (λ p, (p.1 < dimH (shape strong)
                          ∧ p.2 < dimW (shape strong))%nat
                         → FT.is_set out n c p.1 p.2 = true)).
  - intros _. apply Hext; [unfold in_range; lia|].
    unfold seeds. rewrite is_set_build by (unfold in_range; lia). done.
  - intros y z Hqy (Hnb & Hz1 & Hz2 & Hweak) IHy _.
    rewrite Hshape in Hnb, Hz1, Hz2.
    destruct y as [i' j'], z as [i j]. cbn [fst snd] in *.
    destruct (neighbours_bounds _ _ _ _ _ _ Hnb) as [Hi' Hj'].
    destruct Hend as [Hfix|Hcount].
    + eapply stable_closed; [done| |by rewrite Hs| |done].
      * rewrite Hs. unfold in_range. lia.
      * apply IHy. lia.
    + apply count_set_full; [done| |rewrite Hs; unfold in_range; lia].
      rewrite Hs. lia.
Qed.

End Flood.

(** *** 8-connectivity *)

Lemma elem_of_neighbours offs (s : shape4) (i j i' j' : nat) :
  (i', j') ∈ FT.neighbours offs s i j
  ↔ ∃ di dj, (di, dj) ∈ offs
             ∧ Z.of_nat i' = Z.of_nat i + di ∧ Z.of_nat j' = Z.of_nat j + dj
             ∧ (i' < dimH s)%nat ∧ (j' < dimW s)%nat.
Proof.
  unfold FT.neighbours. rewrite list_elem_of_omap. split.
  - intros ([di dj] & Hd & Hq). exists di, dj. split; [done|].
    case_match eqn:Hb; [|done]. injection Hq as <- <-.
    apply andb_prop in Hb as [Hb H4]. apply andb_prop in Hb as [Hb H3].
    apply andb_prop in Hb as [H1 H2].
    apply Z.leb_le in H1, H3. apply Z.ltb_lt in H2, H4. lia.
  - intros (di & dj & Hd & Hi & Hj & Hi' & Hj'). exists (di, dj).
    split; [done|]. rewrite <- Hi, <- Hj, !Nat2Z.id.
    rewrite (proj2 (Z.leb_le 0 (Z.of_nat i'))) by lia.
    rewrite (proj2 (Z.leb_le 0 (Z.of_nat j'))) by lia.
    rewrite (proj2 (Z.ltb_lt (Z.of_nat i') (Z.of_nat (dimH s)))) by lia.
    rewrite (proj2 (Z.ltb_lt (Z.of_nat j') (Z.of_nat (dimW s)))) by lia.
    done.
Qed.

Lemma elem_of_offsets8 (di dj : Z) :
  (di, dj) ∈ FT.offsets8
  ↔ (di, dj) ≠ (0, 0) ∧ Z.abs di ≤ 1 ∧ Z.abs dj ≤ 1.
Proof.
  unfold FT.offsets8. split.
  - intros Hin.
    repeat (apply elem_of_cons in Hin as [[= -> ->]|Hin];
            [split; [discriminate|lia]|]).
    by apply elem_of_nil in Hin.
  - intros (Hne & Hi & Hj).
    assert (di = -1 ∨ di = 0 ∨ di = 1) as [->|[->| ->]] by lia;
      assert (dj = -1 ∨ dj = 0 ∨ dj = 1) as [->|[->| ->]] by lia;
      try done;
      repeat first [apply list_elem_of_here | apply list_elem_of_further].
Qed.

Lemma neighbours8_spec (s : shape4) (i j i' j' : nat) :
  (i', j') ∈ FT.neighbours FT.offsets8 s i j
  ↔ adjacent8 (i', j') (i, j) ∧ (i' < dimH s)%nat ∧ (j' < dimW s)%nat.
Proof.
  rewrite elem_of_neighbours. unfold adjacent8. cbn [fst snd]. split.
  - intros (di & dj & (Hne & Hi & Hj)%elem_of_offsets8 & Hi' & Hj' & Hbi & Hbj).
    split; [|done]. split; [|lia].
    intros [= -> ->]. apply Hne. f_equal; lia.
  - intros ((Hne & Hi & Hj) & Hbi & Hbj).
    exists (Z.of_nat i' - Z.of_nat i), (Z.of_nat j' - Z.of_nat j).
    split; [|lia]. apply elem_of_offsets8. split; [|lia].
    intros [= Hdi Hdj]. apply Hne. f_equal; lia.
Qed.

Lemma step_with8 weak n c q p :
  step_with FT.offsets8 weak n c q p ↔ weak_step weak n c q p.
Proof.
  unfold step_with, weak_step. destruct q as [i' j'], p as [i j].
  cbn [fst snd]. rewrite neighbours8_spec. tauto.
Qed.

Lemma connected_with8 weak strong n c p :
  connected_with FT.offsets8 weak strong n c p ↔ connected weak strong n c p.
Proof.
  unfold connected_with, connected. split.
  - intros (q & H1 & H2 & H3 & Hpath). exists q. repeat split; try done.
    eapply rtc_subrel; [|exact Hpath]. intros x y. apply step_with8.
  - intros (q & H1 & H2 & H3 & Hpath). exists q. repeat split; try done.
    eapply rtc_subrel; [|exact Hpath]. intros x y. apply step_with8.
Qed.

Lemma lift2_run fn a b (h : heap) ta tb :
  h !! a = Some ta → h !! b = Some tb →
  lift2 fn a b h = match fn (torch.as_float ta) (torch.as_float tb) with
                   | Ok g => Ok (length h, h ++ [TFloat g])
                   | Err e => Err e
                   end.
Proof.
  intros Ha Hb. unfold lift2, bind, load, alloc, raise. rewrite Ha, Hb.
  by destruct (fn _ _).
Qed.

Lemma is_set_gget g n c i j :
  FT.is_set g n c i j = true ↔ gget g n c i j = Some F32.one.
Proof. unfold FT.is_set. apply bool_decide_eq_true. Qed.

(** C8: for two binary masks of the same shape, the hysteresis threshold
    returns a binary mask of that shape which holds 1.0 exactly at the
    strong pixels and at the weak pixels that a path of weak pixels
    (8-connected, inside one image) joins to a strong pixel, and 0.0 at every
    other pixel, a weak pixel without such a path included. On the strip of 7
    pixels with pixel 0 strong and pixels 1, 2, 3, 4, 6 weak, the output is
    pixels 0 to 4: pixel 6 is left out. *)
Theorem hysteresis_threshold_connected :
  (∀ (gtf_weak gtf_strong : ref) (weak strong : grid Z) (h : heap),
     h !! gtf_weak = Some (TFloat weak) →
     h !! gtf_strong = Some (TFloat strong) →
     binary_mask weak → binary_mask strong →
     shape weak = shape strong →
     ∃ out,
       outcome (HysteresisThreshold.f gtf_weak gtf_strong) h = Ok (TFloat out)
       ∧ shape out = shape strong ∧ wf out ∧ binary_mask out
       ∧ ∀ n c i j, in_range (shape strong) n c i j →
           (gget out n c i j = Some F32.one
            ↔ connected weak strong n c (i, j))
           ∧ (gget out n c i j = Some F32.zero
              ↔ ¬ connected weak strong n c (i, j)))
  ∧ outcome (HysteresisThreshold.f 0%nat 1%nat)
      [TFloat strip_weak; TFloat strip_strong]
    = Ok (TFloat strip_out).
Proof.
  split; [|vm_compute; reflexivity].
  intros gtf_weak gtf_strong weak strong h Hw Hs _ _ Hshape.
  destruct (hysteresis_with_spec FT.offsets8 weak strong Hshape)
    as (out & Hrun & Hsh & Hcan & Hset).
  exists out. split.
  { unfold outcome, HysteresisThreshold.f.
    rewrite (lift2_run _ _ _ _ _ _ Hw Hs).
    unfold torch.as_float, FT.hysteresis_threshold. rewrite Hrun.
    by rewrite lookup_alloc. }
  split; [done|]. split; [by apply canonical_wf|].
  split; [by apply canonical_binary|].
  intros n c i j Hin.
  assert (Hone : gget out n c i j = Some F32.one
                 ↔ connected weak strong n c (i, j)).
  { rewrite <- is_set_gget, <- connected_with8. by apply Hset. }
  split; [done|].
  destruct (gget_is_Some out n c i j) as [v Hv];
    [by apply canonical_wf|by rewrite Hsh|].
  assert (Hbin : v = F32.zero ∨ v = F32.one).
  { pose proof (canonical_binary out Hcan) as Hb.
    unfold binary_mask in Hb. rewrite Forall_forall in Hb.
    apply Hb. by eapply list_elem_of_lookup_2. }
  rewrite <- Hone, Hv. split.
  - by intros [= ->] [= ?].
  - intros Hne. destruct Hbin as [->| ->]; [done|]. by destruct Hne.
Qed.

Lemma hysteresis_threshold_connected_witness :
  ∃ out,
    outcome (HysteresisThreshold.f 0%nat 1%nat)
      [TFloat strip_weak; TFloat strip_strong] = Ok (TFloat out)
    ∧ shape out = shape strip_strong ∧ wf out ∧ binary_mask out
    ∧ ∀ n c i j, in_range (shape strip_strong) n c i j →
        (gget out n c i j = Some F32.one
         ↔ connected strip_weak strip_strong n c (i, j))
        ∧ (gget out n c i j = Some F32.zero
           ↔ ¬ connected strip_weak strip_strong n c (i, j)).
Proof.
  apply (proj1 hysteresis_threshold_connected 0%nat 1%nat
           strip_weak strip_strong [TFloat strip_weak; TFloat strip_strong]);
    try reflexivity.
  - unfold binary_mask, strip_weak, strip. cbn [data].
    repeat (apply Forall_cons_2; [first [by left|by right]|]).
    apply Forall_nil_2.
  - unfold binary_mask, strip_strong, strip. cbn [data].
    repeat (apply Forall_cons_2; [first [by left|by right]|]).
    apply Forall_nil_2.
Defined.

(** * Further properties of the node layer *)

(** ** Binary threshold: shapes *)

Lemma broadcast_dim_is_Some a b :
  is_Some (torch.broadcast_dim a b) ↔ compatible_dim a b.
Proof.
  unfold torch.broadcast_dim, compatible_dim.
  repeat case_decide; split; intros Hc; try (by eauto); try tauto;
    by destruct Hc as [x Hx].
Qed.

Lemma broadcast_shapes_is_Some s t :
  is_Some (torch.broadcast_shapes s t) ↔ compatible s t.
Proof.
  unfold torch.broadcast_shapes, compatible.
  rewrite <- !broadcast_dim_is_Some.
  destruct (torch.broadcast_dim (dimN s) (dimN t));
    destruct (torch.broadcast_dim (dimC s) (dimC t));
    destruct (torch.broadcast_dim (dimH s) (dimH t));
    destruct (torch.broadcast_dim (dimW s) (dimW t)); cbn;
    split; intros Hc; try (by eauto);
    try (by destruct Hc as [x Hx]);
    destruct Hc as (H1 & H2 & H3 & H4);
    first [by destruct H1 | by destruct H2 | by destruct H3 | by destruct H4].
Qed.

Lemma broadcast_dim_one a : torch.broadcast_dim a 1 = Some a.
Proof. unfold torch.broadcast_dim. repeat case_decide; congruence. Qed.

Lemma broadcast_shapes_scalar s :
  torch.broadcast_shapes s (Shape 1 1 1 1) = Some s.
Proof.
  unfold torch.broadcast_shapes. cbn [dimN dimC dimH dimW].
  rewrite !broadcast_dim_one. cbn. by destruct s.
Qed.

(** The run of a binary threshold on two stored float tensors whose shapes
    broadcast. *)
Lemma binary_threshold_exec gtf thr (h : heap) g t s :
  h !! gtf = Some (TFloat g) → h !! thr = Some (TFloat t) →
  torch.broadcast_shapes (shape g) (shape t) = Some s →
  BinaryThreshold.f gtf thr h
  = Ok (S (length h),
        h ++ [TBool (build s (λ n c i j,
                       F32.ge (torch.bat g n c i j) (torch.bat t n c i j)))]
          ++ [TFloat (torch.to_float_grid
                (build s (λ n c i j,
                   F32.ge (torch.bat g n c i j) (torch.bat t n c i j))))]).
Proof.
  intros Hg Ht Hs. rewrite (binary_threshold_run _ _ _ _ _ Hg Ht).
  unfold torch.ge_grid, torch.as_float. by rewrite Hs.
Qed.

Lemma broadcast_dim_None a b :
  torch.broadcast_dim a b = None ↔ ¬ compatible_dim a b.
Proof.
  rewrite <- broadcast_dim_is_Some, <- eq_None_not_Some. done.
Qed.

(** X1: on two stored grids the binary threshold returns a tensor of the
    broadcast shape when the shapes broadcast (in each dimension the sizes
    agree or one of them is 1). When they do not, it raises torch's size
    error, which reports the last dimension whose sizes do not broadcast
    together with the two sizes there. *)
Theorem binary_threshold_shapes
  (gtf thr : ref) (g t : grid Z) (h : heap) :
  h !! gtf = Some (TFloat g) →
  h !! thr = Some (TFloat t) →
  (compatible (shape g) (shape t)
   ∧ ∃ out,
       outcome (BinaryThreshold.f gtf thr) h = Ok (TFloat out)
       ∧ torch.broadcast_shapes (shape g) (shape t) = Some (shape out))
  ∨ (∃ d a b,
       dims (shape g) !! d = Some a
       ∧ dims (shape t) !! d = Some b
       ∧ ¬ compatible_dim a b
       ∧ (∀ d' a' b', (d < d')%nat →
            dims (shape g) !! d' = Some a' →
            dims (shape t) !! d' = Some b' →
            compatible_dim a' b')
       ∧ BinaryThreshold.f gtf thr h
         = Err (RuntimeError (torch.size_message a b d))).
Proof.
  intros Hg Ht.
  destruct (torch.broadcast_shapes (shape g) (shape t)) as [s|] eqn:Hs.
  { left. split; [apply broadcast_shapes_is_Some; eauto|].
    eexists. split; [by apply binary_threshold_outcome|done]. }
  right.
  assert (Hrun : BinaryThreshold.f gtf thr h
                 = let '(x, y, d) := torch.size_mismatch (shape g) (shape t) in
                   Err (RuntimeError (torch.size_message x y d))).
  { rewrite (binary_threshold_run _ _ _ _ _ Hg Ht).
    unfold torch.ge_grid, torch.as_float. rewrite Hs.
    by destruct (torch.size_mismatch (shape g) (shape t)) as [[x y] d]. }
  unfold torch.size_mismatch in Hrun. unfold dims.
  destruct (torch.broadcast_dim (dimW (shape g)) (dimW (shape t)))
    as [w|] eqn:HW.
  2:{ exists 3%nat, (dimW (shape g)), (dimW (shape t)).
      split; [done|]. split; [done|].
      split; [by apply broadcast_dim_None|]. split; [|done].
      intros d' a' b' Hd Ha. apply lookup_lt_Some in Ha. cbn in Ha. lia. }
  destruct (torch.broadcast_dim (dimH (shape g)) (dimH (shape t)))
    as [hh|] eqn:HH.
  2:{ exists 2%nat, (dimH (shape g)), (dimH (shape t)).
      split; [done|]. split; [done|].
      split; [by apply broadcast_dim_None|]. split; [|done].
      intros d' a' b' Hd Ha Hb.
      destruct d' as [|[|[|[|d']]]]; try lia; [|by destruct d'].
      cbn in Ha, Hb. injection Ha as <-. injection Hb as <-.
      apply broadcast_dim_is_Some. eauto. }
  destruct (torch.broadcast_dim (dimC (shape g)) (dimC (shape t)))
    as [cc|] eqn:HC.
  2:{ exists 1%nat, (dimC (shape g)), (dimC (shape t)).
      split; [done|]. split; [done|].
      split; [by apply broadcast_dim_None|]. split; [|done].
      intros d' a' b' Hd Ha Hb.
      destruct d' as [|[|[|[|d']]]]; try lia; [| |by destruct d'];
        cbn in Ha, Hb; injection Ha as <-; injection Hb as <-;
        apply broadcast_dim_is_Some; eauto. }
  exists 0%nat, (dimN (shape g)), (dimN (shape t)).
  split; [done|]. split; [done|]. split.
  { apply broadcast_dim_None.
    destruct (torch.broadcast_dim (dimN (shape g)) (dimN (shape t)))
      as [nn|] eqn:HN; [|done].
    unfold torch.broadcast_shapes in Hs. rewrite HN, HC, HH, HW in Hs.
    discriminate Hs. }
  split; [|done].
  intros d' a' b' Hd Ha Hb.
  destruct d' as [|[|[|[|d']]]]; try lia; [| | |by destruct d'];
    cbn in Ha, Hb; injection Ha as <-; injection Hb as <-;
    apply broadcast_dim_is_Some; eauto.
Qed.

Lemma binary_threshold_shapes_witness :
  (∃ d a b,
     dims (shape gap_row) !! d = Some a
     ∧ dims (shape sample_grid) !! d = Some b
     ∧ ¬ compatible_dim a b
     ∧ (∀ d' a' b', (d < d')%nat →
          dims (shape gap_row) !! d' = Some a' →
          dims (shape sample_grid) !! d' = Some b' →
          compatible_dim a' b')
     ∧ BinaryThreshold.f 0%nat 1%nat gap_heap
       = Err (RuntimeError (torch.size_message a b d)))
  ∧ BinaryThreshold.f 0%nat 1%nat gap_heap
    = Err (RuntimeError
             "The size of tensor a (3) must match the size of tensor b (2) at non-singleton dimension 3").
Proof.
  split; [|vm_compute; reflexivity].
  destruct (binary_threshold_shapes 0%nat 1%nat gap_row sample_grid gap_heap)
    as [[Hc _]|Herr]; [reflexivity|reflexivity| |exact Herr].
  exfalso. destruct Hc as (_ & _ & _ & HW). cbn in HW.
  unfold compatible_dim in HW. lia.
Defined.

Lemma bat_scalar v n c i j : torch.bat (scalar_grid v) n c i j = v.
Proof. reflexivity. Qed.

Lemma bat_in_range (g : grid Z) n c i j x :
  in_range (shape g) n c i j → gget g n c i j = Some x →
  torch.bat g n c i j = x.
Proof.
  intros Hin Hx. unfold torch.bat. by rewrite bget_in_range, Hx.
Qed.

(** X2: against a threshold tensor of one element the binary threshold
    keeps the shape of the grid, and its element at every position is 1.0
    when the element of the grid there is >= that one threshold value, 0.0
    otherwise. *)
Theorem binary_threshold_scalar
  (gtf thr : ref) (g : grid Z) (v : Z) (h : heap) :
  h !! gtf = Some (TFloat g) →
  h !! thr = Some (TFloat (scalar_grid v)) →
  ∃ out,
    outcome (BinaryThreshold.f gtf thr) h = Ok (TFloat out)
    ∧ shape out = shape g
    ∧ ∀ n c i j x, in_range (shape g) n c i j →
        gget g n c i j = Some x →
        gget out n c i j = Some (F32.of_bool (F32.ge x v)).
Proof.
  intros Hg Ht. eexists. split.
  { apply binary_threshold_outcome; [done..|]. apply broadcast_shapes_scalar. }
  split; [done|].
  intros n c i j x Hin Hx.
  rewrite gget_to_float_grid, gget_build by done. cbn [fmap option_fmap option_map].
  by rewrite bat_scalar, (bat_in_range g n c i j x).
Qed.

Lemma binary_threshold_scalar_witness :
  ∃ out,
    outcome (BinaryThreshold.f 0%nat 1%nat) sample_heap = Ok (TFloat out)
    ∧ shape out = shape sample_grid
    ∧ ∀ n c i j x, in_range (shape sample_grid) n c i j →
        gget sample_grid n c i j = Some x →
        gget out n c i j = Some (F32.of_bool (F32.ge x F32.one)).
Proof.
  apply (binary_threshold_scalar 0%nat 1%nat sample_grid F32.one sample_heap);
    reflexivity.
Defined.

(** ** Binary threshold: order and composition *)

Lemma ge_le_compose x x' y y' :
  F32.ge x y = true → f32_le x x' → f32_le y' y → F32.ge x' y' = true.
Proof.
  intros Hxy [<-|Hx] [->|Hy]; [done|..].
  - by eapply ge_trans.
  - by eapply ge_trans.
  - eapply ge_trans; [exact Hx|]. by eapply ge_trans.
Qed.

(** X3: at every position, the output of the binary threshold is monotone:
    where the threshold of g against t is 1.0, so is the threshold of g'
    against t' whenever the element of g' there is at least that of g and the
    element of t' at most that of t. *)
Theorem binary_threshold_monotone
  (gtf thr gtf' thr' : ref) (g t g' t' : grid Z) (s : shape4) (h : heap)
  (n c i j : nat) (x y x' y' : Z) :
  h !! gtf = Some (TFloat g) → h !! thr = Some (TFloat t) →
  h !! gtf' = Some (TFloat g') → h !! thr' = Some (TFloat t') →
  torch.broadcast_shapes (shape g) (shape t) = Some s →
  torch.broadcast_shapes (shape g') (shape t') = Some s →
  in_range s n c i j →
  torch.bget g n c i j = Some x → torch.bget t n c i j = Some y →
  torch.bget g' n c i j = Some x' → torch.bget t' n c i j = Some y' →
  f32_le x x' → f32_le y' y →
  ∃ out out',
    outcome (BinaryThreshold.f gtf thr) h = Ok (TFloat out)
    ∧ outcome (BinaryThreshold.f gtf' thr') h = Ok (TFloat out')
    ∧ (gget out n c i j = Some F32.one → gget out' n c i j = Some F32.one).
Proof.
  intros Hg Ht Hg' Ht' Hs Hs' Hin Hx Hy Hx' Hy' Hle_x Hle_y.
  eexists. eexists.
  split; [by apply binary_threshold_outcome|].
  split; [by apply binary_threshold_outcome|].
  rewrite !gget_to_float_grid, !gget_build by done.
  unfold torch.bat. rewrite Hx, Hy, Hx', Hy'.
  cbn [fmap option_fmap option_map default].
  intros Hone%(inj Some)%of_bool_one. f_equal. apply of_bool_one.
  by eapply ge_le_compose.
Qed.

Lemma binary_threshold_monotone_witness :
  ∃ out out',
    outcome (BinaryThreshold.f 0%nat 1%nat) sample_heap = Ok (TFloat out)
    ∧ outcome (BinaryThreshold.f 0%nat 0%nat) sample_heap = Ok (TFloat out')
    ∧ (gget out 0 0 0 0 = Some F32.one → gget out' 0 0 0 0 = Some F32.one).
Proof.
  apply (binary_threshold_monotone 0%nat 1%nat 0%nat 0%nat
           sample_grid sample_threshold sample_grid sample_grid
           (Shape 1 1 2 2) sample_heap 0 0 0 0
           F32.one F32.one F32.one F32.one);
    try reflexivity.
  - unfold in_range. cbn. lia.
  - by left.
  - by left.
Defined.

Lemma bat_to_float_build (s : shape4) (k : nat → nat → nat → nat → bool)
    n c i j :
  in_range s n c i j →
  torch.bat (torch.to_float_grid (build s k)) n c i j = F32.of_bool (k n c i j).
Proof.
  intros Hin. apply bat_in_range; [done|].
  by rewrite gget_to_float_grid, gget_build.
Qed.

Lemma ge_of_bool_self b : F32.ge (F32.of_bool b) (F32.of_bool b) = true.
Proof. destruct b; by vm_compute. Qed.

(** X4: thresholding the output of a binary threshold against itself gives
    1.0 everywhere, whatever the grid held (NaN included): an output has no
    NaN left. *)
Theorem binary_threshold_output_self
  (gtf thr : ref) (g t : grid Z) (s : shape4) (h : heap) :
  h !! gtf = Some (TFloat g) →
  h !! thr = Some (TFloat t) →
  torch.broadcast_shapes (shape g) (shape t) = Some s →
  ∃ out,
    outcome (do m <- BinaryThreshold.f gtf thr in BinaryThreshold.f m m) h
    = Ok (TFloat out)
    ∧ shape out = s
    ∧ Forall (λ v, v = F32.one) (data out).
Proof.
  intros Hg Ht Hs.
  set (k := λ n c i j, F32.ge (torch.bat g n c i j) (torch.bat t n c i j)).
  set (out1 := torch.to_float_grid (build s k)).
  set (h1 := h ++ [TBool (build s k)] ++ [TFloat out1]).
  assert (Hrun1 : BinaryThreshold.f gtf thr h = Ok (S (length h), h1))
    by by apply binary_threshold_exec.
  assert (Hm : h1 !! S (length h) = Some (TFloat out1))
    by apply lookup_alloc2.
  eexists. split.
  { unfold outcome, bind. rewrite Hrun1.
    rewrite (binary_threshold_exec _ _ h1 out1 out1 s Hm Hm)
      by apply broadcast_shapes_same.
    by rewrite lookup_alloc2. }
  split; [done|].
  cbn [data torch.to_float_grid build].
  apply Forall_fmap, Forall_forall.
  intros b (n & c & i & j & Hin & ->)%elem_of_tabulate.
  cbn [compose]. unfold out1. rewrite bat_to_float_build by done.
  by rewrite ge_of_bool_self.
Qed.

Lemma binary_threshold_output_self_witness :
  ∃ out,
    outcome (do m <- BinaryThreshold.f 0%nat 1%nat in BinaryThreshold.f m m)
      sample_heap
    = Ok (TFloat out)
    ∧ shape out = Shape 1 1 2 2
    ∧ Forall (λ v, v = F32.one) (data out).
Proof.
  apply (binary_threshold_output_self 0%nat 1%nat sample_grid sample_threshold
           (Shape 1 1 2 2) sample_heap); reflexivity.
Defined.

Lemma ge_of_bool_cut b v :
  F32.ge F32.one v = true → F32.ge F32.zero v = false →
  F32.ge (F32.of_bool b) v = b.
Proof. by destruct b. Qed.

(** X5: thresholding again changes nothing: the threshold of an output
    against a one-element threshold v with 0.0 < v <= 1.0 (1.0 >= v holds,
    0.0 >= v does not) is that output. *)
Theorem binary_threshold_idempotent
  (gtf thr cut : ref) (g t : grid Z) (v : Z) (s : shape4) (h : heap) :
  h !! gtf = Some (TFloat g) →
  h !! thr = Some (TFloat t) →
  h !! cut = Some (TFloat (scalar_grid v)) →
  torch.broadcast_shapes (shape g) (shape t) = Some s →
  F32.ge F32.one v = true →
  F32.ge F32.zero v = false →
  ∃ out,
    outcome (BinaryThreshold.f gtf thr) h = Ok (TFloat out)
    ∧ outcome (do m <- BinaryThreshold.f gtf thr in BinaryThreshold.f m cut) h
      = Ok (TFloat out).
Proof.
  intros Hg Ht Hcut Hs Hone Hzero.
  set (k := λ n c i j, F32.ge (torch.bat g n c i j) (torch.bat t n c i j)).
  set (out1 := torch.to_float_grid (build s k)).
  set (h1 := h ++ [TBool (build s k)] ++ [TFloat out1]).
  assert (Hrun1 : BinaryThreshold.f gtf thr h = Ok (S (length h), h1))
    by by apply binary_threshold_exec.
  assert (Hm : h1 !! S (length h) = Some (TFloat out1))
    by apply lookup_alloc2.
  assert (Hcut1 : h1 !! cut = Some (TFloat (scalar_grid v)))
    by by apply lookup_app_l_Some.
  exists out1. split; [by apply binary_threshold_outcome|].
  unfold outcome, bind. rewrite Hrun1.
  rewrite (binary_threshold_exec _ _ h1 out1 (scalar_grid v) s Hm Hcut1)
    by apply broadcast_shapes_scalar.
  rewrite lookup_alloc2. do 2 f_equal.
  assert (Hk : tabulate s (λ n c i j,
                  F32.ge (torch.bat out1 n c i j)
                    (torch.bat (scalar_grid v) n c i j))
               = tabulate s k).
  { apply tabulate_ext. intros n c i j Hin.
    unfold out1. rewrite bat_to_float_build, bat_scalar by done.
    by apply ge_of_bool_cut. }
  change (Grid s (F32.of_bool <$> tabulate s (λ n c i j,
                    F32.ge (torch.bat out1 n c i j)
                      (torch.bat (scalar_grid v) n c i j)))
          = out1).
  rewrite Hk. reflexivity.
Qed.

Lemma binary_threshold_idempotent_witness :
  ∃ out,
    outcome (BinaryThreshold.f 0%nat 1%nat) sample_heap = Ok (TFloat out)
    ∧ outcome (do m <- BinaryThreshold.f 0%nat 1%nat in
               BinaryThreshold.f m 1%nat) sample_heap
      = Ok (TFloat out).
Proof.
  apply (binary_threshold_idempotent 0%nat 1%nat 1%nat sample_grid
           sample_threshold F32.one (Shape 1 1 2 2) sample_heap);
    reflexivity.
Defined.

(** ** The morphological filter and its declaration *)

Lemma lift1_err fn a (h : heap) e :
  lift1 fn a h = Err e →
  e = RuntimeError "no such object"
  ∨ ∃ t, h !! a = Some t ∧ fn (torch.as_float t) = Err e.
Proof.
  unfold lift1, bind, load, alloc, raise.
  destruct (h !! a) as [t|]; [|intros [= <-]; by left].
  destruct (fn (torch.as_float t)) as [g|e'] eqn:Hfn; [done|].
  intros [= <-]. right. eauto.
Qed.

Lemma patch_stat_err stat g radius e :
  FT.patch_stat stat g radius = Err e → e = InvalidArgument ["radius >= 0"].
Proof.
  unfold FT.patch_stat. destruct (radius <? 0); [|done]. by intros [= <-].
Qed.

Lemma morphology_err g radius e :
  FT.dilate g radius = Err e ∨ FT.erode g radius = Err e
  ∨ FT.open g radius = Err e ∨ FT.close g radius = Err e →
  e = InvalidArgument ["radius >= 0"].
Proof.
  unfold FT.open, FT.close, FT.dilate, FT.erode, FT.patch_max, FT.patch_min,
    rbind.
  intros [He|[He|[He|He]]]; try (by eapply patch_stat_err).
  - destruct (FT.patch_stat (FT.reduce F32.min) g radius) eqn:H1;
      [by eapply patch_stat_err|].
    injection He as <-. by eapply patch_stat_err.
  - destruct (FT.patch_stat (FT.reduce F32.max) g radius) eqn:H1;
      [by eapply patch_stat_err|].
    injection He as <-. by eapply patch_stat_err.
Qed.

(** A handled operation never leaves [filtered] unassigned. *)
Lemma morphological_step_err fn gtf (h : heap) e :
  (do filtered <- (do r <- lift1 fn gtf in ret (Some r)) in
   match filtered with
   | Some r => ret r
   | None => raise (UnboundLocalError "filtered")
   end) h = Err e →
  lift1 fn gtf h = Err e.
Proof.
  unfold bind, ret, raise.
  destruct (lift1 fn gtf h) as [[r h']|e']; [done|]. by intros [= <-].
Qed.

(** With a listed operation the error of a failing call is that of the
    filter function or of the load, never the unbound [filtered]. *)
Lemma morphological_listed_error gtf operation radius (h : heap) e :
  operation ∈ MorphologicalFilter.operations →
  MorphologicalFilter.f gtf operation radius h = Err e →
  e ≠ UnboundLocalError "filtered".
Proof.
  unfold MorphologicalFilter.f, MorphologicalFilter.operations.
  intros Hin. destruct (radius =? 0); [done|].
  repeat (apply elem_of_cons in Hin as [->|Hin]);
    [| | | |by apply elem_of_nil in Hin];
    cbn [String.eqb Ascii.eqb Bool.eqb];
    intros [He|(t & _ & He)]%morphological_step_err%lift1_err;
    try (by subst e).
  - by rewrite (morphology_err _ _ _ (or_introl He)).
  - by rewrite (morphology_err _ _ _ (or_intror (or_introl He))).
  - by rewrite (morphology_err _ _ _
                  (or_intror (or_intror (or_introl He)))).
  - by rewrite (morphology_err _ _ _
                  (or_intror (or_intror (or_intror He)))).
Qed.

Lemma morphological_unlisted_error gtf operation radius (h : heap) :
  radius ≠ 0 → operation ∉ MorphologicalFilter.operations →
  MorphologicalFilter.f gtf operation radius h
  = Err (UnboundLocalError "filtered").
Proof.
  intros Hr Hop. unfold MorphologicalFilter.f.
  destruct (Z.eqb_spec radius 0) as [|_]; [done|].
  unfold MorphologicalFilter.operations in Hop.
  assert (String.eqb operation "dilate" = false) as ->
    by (apply String.eqb_neq; intros ->; apply Hop; set_solver).
  assert (String.eqb operation "erode" = false) as ->
    by (apply String.eqb_neq; intros ->; apply Hop; set_solver).
  assert (String.eqb operation "open" = false) as ->
    by (apply String.eqb_neq; intros ->; apply Hop; set_solver).
  assert (String.eqb operation "close" = false) as ->
    by (apply String.eqb_neq; intros ->; apply Hop; set_solver).
  reflexivity.
Qed.

(** X6: the morphological filter fails with the unbound local variable
    [filtered] exactly when the radius is not 0 and the operation is none of
    the listed ones; with radius 0 no operation name fails, listed or not. *)
Theorem morphological_unbound_iff
  (gtf : ref) (operation : string) (radius : Z) (h : heap) :
  MorphologicalFilter.f gtf operation radius h
  = Err (UnboundLocalError "filtered")
  ↔ radius ≠ 0 ∧ operation ∉ MorphologicalFilter.operations.
Proof.
  split.
  - intros Herr. split.
    + intros ->. discriminate Herr.
    + intros Hin. by eapply morphological_listed_error.
  - intros [Hr Hop]. by apply morphological_unlisted_error.
Qed.

(** ** Classes, registry and keyword calls *)

Lemma lookup_mro_base impl fuel name :
  lookup_mro impl fuel KFilterBase name
  = assoc name (own_attributes impl KFilterBase).
Proof. destruct fuel; cbn [lookup_mro base]; by destruct (assoc _ _). Qed.

Lemma lookup_mro_radius_base impl fuel name :
  lookup_mro impl (S fuel) KFilterRadiusBase name
  = lookup_mro impl 1 KFilterRadiusBase name.
Proof.
  cbn [lookup_mro base].
  destruct (assoc name (own_attributes impl KFilterRadiusBase)); [done|].
  rewrite lookup_mro_base.
  by destruct (assoc name (own_attributes impl KFilterBase)).
Qed.

(** Two levels of bases are all there is: more fuel finds nothing else. *)
Lemma lookup_mro_enough impl fuel k name :
  lookup_mro impl (2 + fuel) k name = getattr impl k name.
Proof.
  unfold getattr.
  change (2 + fuel)%nat with (S (S fuel)).
  destruct k; cbn [lookup_mro base];
    destruct (assoc name (own_attributes impl _)); try done;
    rewrite ?lookup_mro_base;
    repeat (destruct (assoc name (own_attributes impl _)); try done).
Qed.

Ltac registry_cases H :=
  unfold NODE_CLASS_MAPPINGS in H;
  repeat (apply elem_of_cons in H as [H|H]; [injection H as -> ->|]);
  [..|by apply elem_of_nil in H].

(** X8: every class of the registry takes [FUNCTION], [RETURN_TYPES],
    [RETURN_NAMES] and [CATEGORY] from [FilterBase] unchanged: it is called
    through [f], returns one GTF named gtf, and sits in gtf/filter. Its
    [INPUT_TYPES] is its own where the class defines one and that of its base
    otherwise, and a class with more bases above it would change none of
    this. *)
Theorem registered_class_attributes
  (impl : gtf_impl) (name : string) (k : class_id) :
  (name, k) ∈ NODE_CLASS_MAPPINGS →
  getattr impl k "FUNCTION" = Some (AttrStr "f")
  ∧ getattr impl k "RETURN_TYPES" = Some (AttrTuple ["GTF"])
  ∧ getattr impl k "RETURN_NAMES" = Some (AttrTuple ["gtf"])
  ∧ getattr impl k "CATEGORY" = Some (AttrStr "gtf/filter")
  ∧ getattr impl k "INPUT_TYPES"
    = Some (AttrInputTypes (class_input_types impl k))
  ∧ ∀ fuel attr,
      lookup_mro impl (2 + fuel) k attr = getattr impl k attr.
Proof.
  intros Hreg.
  assert (Hfuel : ∀ fuel attr,
            lookup_mro impl (2 + fuel) k attr = getattr impl k attr)
    by (intros; apply lookup_mro_enough).
  registry_cases Hreg; repeat split; try reflexivity; exact Hfuel.
Qed.

Lemma registered_class_attributes_witness :
  getattr sample_impl KMinFilter "FUNCTION" = Some (AttrStr "f")
  ∧ getattr sample_impl KMinFilter "RETURN_TYPES" = Some (AttrTuple ["GTF"])
  ∧ getattr sample_impl KMinFilter "RETURN_NAMES" = Some (AttrTuple ["gtf"])
  ∧ getattr sample_impl KMinFilter "CATEGORY" = Some (AttrStr "gtf/filter")
  ∧ getattr sample_impl KMinFilter "INPUT_TYPES"
    = Some (AttrInputTypes (class_input_types sample_impl KMinFilter))
  ∧ ∀ fuel attr,
      lookup_mro sample_impl (2 + fuel) KMinFilter attr
      = getattr sample_impl KMinFilter attr.
Proof.
  apply (registered_class_attributes sample_impl "GTF | Filter - Patch Min").
  unfold NODE_CLASS_MAPPINGS.
  do 11 apply list_elem_of_further. apply list_elem_of_here.
Defined.

(** X9: the registry names every class that defines [f] exactly once, under
    a name of its own: no two entries share a name or a class, and the two
    base classes, which define no [f], are not in it. *)
Theorem registry_exact (impl : gtf_impl) :
  NoDup NODE_CLASS_MAPPINGS.*1
  ∧ NoDup NODE_CLASS_MAPPINGS.*2
  ∧ ∀ k, k ∈ NODE_CLASS_MAPPINGS.*2
         ↔ is_Some (assoc "f" (own_attributes impl k)).
Proof.
  split; [|split].
  - apply (bool_decide_unpack (NoDup NODE_CLASS_MAPPINGS.*1)). by vm_compute.
  - apply (bool_decide_unpack (NoDup NODE_CLASS_MAPPINGS.*2)). by vm_compute.
  - intros k. split.
    + intros Hin. cbn in Hin.
      repeat (apply elem_of_cons in Hin as [->|Hin]; [cbn; eauto|]).
      by apply elem_of_nil in Hin.
    + intros [a Ha]. cbn.
      destruct k; try discriminate Ha;
        repeat first [apply list_elem_of_here | apply list_elem_of_further].
Qed.

(** X10: the default that a registered class declares for an integer input
    is a value its own declaration admits: every declared integer input has a
    default, and the default lies within the declared bounds. *)
Theorem declared_defaults_admitted
  (impl : gtf_impl) (name : string) (k : class_id)
  (input : string) (opts : list (string * Z)) :
  (name, k) ∈ NODE_CLASS_MAPPINGS →
  (input, INT opts) ∈ class_input_types impl k →
  ∃ d, declared_default (class_input_types impl k) input = Some d
       ∧ assoc "default" opts = Some d
       ∧ admits_int (class_input_types impl k) input d = true.
Proof.
  intros Hreg Hin.
  registry_cases Hreg; vm_compute in Hin;
    repeat (apply elem_of_cons in Hin as [Heq|Hin];
            [first [discriminate Heq
                   | injection Heq as -> ->; eexists;
                     split; [reflexivity|]; split; reflexivity]|]);
    by apply elem_of_nil in Hin.
Qed.

Lemma declared_defaults_admitted_witness :
  ∃ d, declared_default (class_input_types sample_impl KQuantize) "steps"
       = Some d
       ∧ assoc "default" [("default", 256); ("min", 2); ("max", 1000000)]
         = Some d
       ∧ admits_int (class_input_types sample_impl KQuantize) "steps" d = true.
Proof.
  apply (declared_defaults_admitted sample_impl "GTF | Filter - Quantize").
  - unfold NODE_CLASS_MAPPINGS.
    do 7 apply list_elem_of_further. apply list_elem_of_here.
  - cbn. apply list_elem_of_further, list_elem_of_here.
Defined.

Lemma assoc_same_keys {V W} (l1 : list (string * V)) (l2 : list (string * W))
    (k : string) :
  l1.*1 = l2.*1 →
  match assoc k l1 with Some _ => true | None => false end
  = match assoc k l2 with Some _ => true | None => false end.
Proof.
  revert l2. induction l1 as [|[k1 v1] l1 IH]; intros [|[k2 v2] l2] Hk;
    try done.
  cbn in Hk. injection Hk as -> Hk. cbn [assoc].
  destruct (String.eqb k k2); [done|]. by apply IH.
Qed.

Lemma forallb_same_keys {V W A} (l1 : list (string * V)) (l2 : list (string * W))
    (kw : list (string * A)) :
  l1.*1 = l2.*1 →
  forallb (λ a : string * A,
             match assoc a.1 l1 with Some _ => true | None => false end) kw
  = forallb (λ a : string * A,
               match assoc a.1 l2 with Some _ => true | None => false end) kw.
Proof.
  intros Hk. induction kw as [|a kw IH]; [done|]. cbn [forallb].
  by rewrite IH, (assoc_same_keys l1 l2 a.1 Hk).
Qed.

Ltac supplied Hdecl :=
  repeat match type of Hdecl with
  | context [assoc ?n ?kw] =>
      let E := fresh "Harg" in
      destruct (assoc n kw) as [[?|?|?]|] eqn:E;
        cbn [admits andb fst snd] in Hdecl;
        rewrite ?andb_false_r in Hdecl; try discriminate Hdecl
  end.

(** X11: keyword arguments that fit the [INPUT_TYPES] of a registered class
    always bind to its [f]: the declared input names are the parameter names
    of [f], so no parameter is missing and no keyword is left over, and the
    tensors reach [f] in the order of the declaration. *)
Theorem validated_call_binds
  (impl : gtf_impl) (name : string) (k : class_id) (kw : list (string * value)) :
  (name, k) ∈ NODE_CLASS_MAPPINGS →
  validate (class_input_types impl k) kw = true →
  ∃ c, invoke impl k kw = Some c
       ∧ inputs c = tensor_args (class_input_types impl k) kw.
Proof.
  intros Hreg Hval. unfold validate in Hval.
  apply andb_prop in Hval as [Hdecl Hextra].
  registry_cases Hreg.
  all: unfold invoke; cbn [getattr lookup_mro own_attributes base assoc
                           String.eqb Ascii.eqb Bool.eqb];
    unfold bind_arguments;
    erewrite <- forallb_same_keys; [rewrite Hextra|reflexivity].
  all: cbv [class_input_types Convolve.INPUT_TYPES GradientNMSMask.INPUT_TYPES
            HysteresisThreshold.INPUT_TYPES SumNormalize.INPUT_TYPES
            RangeNormalize.INPUT_TYPES Invert.INPUT_TYPES
            BinaryThreshold.INPUT_TYPES Quantize.INPUT_TYPES
            MorphologicalFilter.INPUT_TYPES MorphologicalFilter.operations
            OtsusMethod.INPUT_TYPES PatchRangeNormalize.INPUT_TYPES
            MinFilter.INPUT_TYPES MaxFilter.INPUT_TYPES MedianFilter.INPUT_TYPES
            FilterBase.INPUT_TYPES FilterRadiusBase.INPUT_TYPES] in *;
    cbn [forallb fst snd] in Hdecl;
    supplied Hdecl;
    unfold tensor_args;
    cbn [mapM omap fst snd mbind option_bind mret option_ret fmap option_fmap
         option_map to_call inputs];
    rewrite ?Harg, ?Harg0, ?Harg1;
    cbn [mapM omap fst snd mbind option_bind mret option_ret fmap option_fmap
         option_map to_call inputs];
    eexists; (split; [reflexivity|]);
    cbn [omap list_omap fst snd inputs];
    rewrite ?Harg, ?Harg0, ?Harg1; reflexivity.
Qed.

Lemma validated_call_binds_witness :
  ∃ c, invoke sample_impl KMorphologicalFilter sample_kwargs = Some c
       ∧ inputs c
         = tensor_args (class_input_types sample_impl KMorphologicalFilter)
             sample_kwargs.
Proof.
  apply (validated_call_binds sample_impl "GTF | Filter - Morphological").
  - unfold NODE_CLASS_MAPPINGS.
    do 8 apply list_elem_of_further. apply list_elem_of_here.
  - reflexivity.
Defined.

Lemma existsb_eqb_elem_of (s : string) (l : list string) :
  existsb (String.eqb s) l = true → s ∈ l.
Proof.
  intros (x & Hx%list_elem_of_In & Heq%String.eqb_eq)%existsb_exists.
  by subst.
Qed.

(** X12: keyword arguments that fit the declaration of the morphological
    filter name a listed operation and a radius of at least 1; the call they
    bind to never fails on the unbound [filtered], and when it returns, its
    result is a new tensor, not the argument. *)
Theorem validated_morphological_call
  (impl : gtf_impl) (kw : list (string * value)) (h : heap) :
  validate MorphologicalFilter.INPUT_TYPES kw = true →
  ∃ gtf operation radius,
    invoke impl KMorphologicalFilter kw
    = Some (CallMorphological gtf operation radius)
    ∧ operation ∈ MorphologicalFilter.operations
    ∧ 1 ≤ radius
    ∧ run impl (CallMorphological gtf operation radius) h
      ≠ Err (UnboundLocalError "filtered")
    ∧ ∀ r h', run impl (CallMorphological gtf operation radius) h
              = Ok (r, h') →
              fresh h r ∧ r ≠ gtf.
Proof.
  intros Hval. unfold validate in Hval.
  apply andb_prop in Hval as [Hdecl Hextra].
  unfold invoke.
  cbn [getattr lookup_mro own_attributes base assoc
       String.eqb Ascii.eqb Bool.eqb].
  unfold bind_arguments.
  erewrite <- forallb_same_keys; [rewrite Hextra|reflexivity].
  cbv [MorphologicalFilter.INPUT_TYPES] in Hdecl.
  cbn [forallb fst snd] in Hdecl.
  destruct (assoc "gtf" kw) as [[gtf|?|?]|] eqn:Hgtf;
    cbn [admits andb] in Hdecl; try discriminate Hdecl.
  destruct (assoc "operation" kw) as [[?|?|operation]|] eqn:Hop;
    cbn [admits andb] in Hdecl; try discriminate Hdecl.
  destruct (assoc "radius" kw) as [[?|radius|?]|] eqn:Hrad;
    cbn [admits andb] in Hdecl; rewrite ?andb_false_r in Hdecl;
    try discriminate Hdecl.
  rewrite andb_true_r in Hdecl.
  apply andb_prop in Hdecl as [Hlisted Hbounds].
  apply existsb_eqb_elem_of in Hlisted.
  cbn [assoc String.eqb Ascii.eqb Bool.eqb] in Hbounds.
  apply andb_prop in Hbounds as [Hlo%Z.leb_le _].
  exists gtf, operation, radius.
  split.
  { cbn [mapM fst snd mbind option_bind mret option_ret fmap option_fmap
         option_map].
    rewrite Hgtf, Hop, Hrad. reflexivity. }
  split; [done|]. split; [done|]. cbn [run]. split.
  - intros Herr. by eapply morphological_listed_error.
  - intros r h' [(-> & _)|(_ & t & g & Ha & -> & _)]%morphological_ok; [lia|].
    split; [apply fresh_length|]. apply lookup_lt_Some in Ha. lia.
Qed.

Lemma validated_morphological_call_witness :
  ∃ gtf operation radius,
    invoke sample_impl KMorphologicalFilter sample_kwargs
    = Some (CallMorphological gtf operation radius)
    ∧ operation ∈ MorphologicalFilter.operations
    ∧ 1 ≤ radius
    ∧ run sample_impl (CallMorphological gtf operation radius) sample_heap
      ≠ Err (UnboundLocalError "filtered")
    ∧ ∀ r h', run sample_impl (CallMorphological gtf operation radius)
                sample_heap = Ok (r, h') →
              fresh sample_heap r ∧ r ≠ gtf.
Proof.
  apply (validated_morphological_call sample_impl sample_kwargs sample_heap).
  reflexivity.
Defined.

(** X13: a NaN in the threshold suppresses the pixel, whatever the grid
    holds there: the output is exactly 0.0 at every position whose threshold
    element is a NaN. *)
Theorem binary_threshold_nan_threshold
  (gtf thr : ref) (g t : grid Z) (s : shape4) (h : heap)
  (n c i j : nat) (y : Z) :
  h !! gtf = Some (TFloat g) →
  h !! thr = Some (TFloat t) →
  torch.broadcast_shapes (shape g) (shape t) = Some s →
  in_range s n c i j →
  torch.bget t n c i j = Some y →
  F32.is_nan y = true →
  ∃ out,
    outcome (BinaryThreshold.f gtf thr) h = Ok (TFloat out)
    ∧ gget out n c i j = Some F32.zero.
Proof.
  intros Hg Ht Hs Hin Hy Hnan.
  eexists. split; [by apply binary_threshold_outcome|].
  rewrite gget_to_float_grid, gget_build by done.
  unfold torch.bat at 2. rewrite Hy.
  cbn [fmap option_fmap option_map default].
  by rewrite ge_nan_r.
Qed.

Lemma binary_threshold_nan_threshold_witness :
  ∃ out,
    outcome (BinaryThreshold.f 1%nat 0%nat) sample_heap = Ok (TFloat out)
    ∧ gget out 0 0 1 0 = Some F32.zero.
Proof.
  apply (binary_threshold_nan_threshold 1%nat 0%nat sample_threshold
           sample_grid (Shape 1 1 2 2) sample_heap 0 0 1 0 F32.qnan);
    try reflexivity.
  unfold in_range. cbn. lia.
Defined.

(** X14: the declaration of every registered class is a proper dictionary
    that starts with a tensor: its input names are pairwise distinct, its
    first input is a GTF, and the option names of every integer input are
    pairwise distinct. *)
Theorem declared_inputs_well_formed
  (impl : gtf_impl) (name : string) (k : class_id) :
  (name, k) ∈ NODE_CLASS_MAPPINGS →
  NoDup (class_input_types impl k).*1
  ∧ (∃ first, head (class_input_types impl k) = Some (first, GTF))
  ∧ ∀ input opts, (input, INT opts) ∈ class_input_types impl k →
                  NoDup opts.*1.
Proof.
  intros Hreg. registry_cases Hreg.
  all: split;
    [apply (bool_decide_unpack (NoDup _)); by vm_compute|];
    split; [eexists; reflexivity|];
    intros input opts Hin; vm_compute in Hin;
    repeat (apply elem_of_cons in Hin as [Heq|Hin];
            [first [discriminate Heq
                   | injection Heq as -> ->;
                     apply (bool_decide_unpack (NoDup _)); by vm_compute]|]);
    by apply elem_of_nil in Hin.
Qed.

Lemma declared_inputs_well_formed_witness :
  NoDup (class_input_types sample_impl KOtsusMethod).*1
  ∧ (∃ first, head (class_input_types sample_impl KOtsusMethod)
              = Some (first, GTF))
  ∧ ∀ input opts,
      (input, INT opts) ∈ class_input_types sample_impl KOtsusMethod →
      NoDup opts.*1.
Proof.
  apply (declared_inputs_well_formed sample_impl "GTF | Helper - Otsu's Method").
  unfold NODE_CLASS_MAPPINGS.
  do 9 apply list_elem_of_further. apply list_elem_of_here.
Defined.
